(** * Llumnix global scheduler: the migration and registry paths

    A shallow embedding of [llumnix/global_scheduler/global_scheduler.py]
    and [llumnix/global_scheduler/migration_scheduler.py].

    Modelling choices:
    - Python floats are IEEE binary64, so loads are Rocq's primitive
      [float]; [-np.inf] is [PrimFloat.neg_infinity], Python's [<], [>],
      [==] and [-] on floats are [PrimFloat.ltb], [PrimFloat.eqb] and
      [PrimFloat.sub].  Python integers are [Z].
    - InstanceInfo objects are shared by reference between the registry,
      the sub-schedulers and the policy lists, and [copy.deepcopy] makes a
      new object: objects live in a heap (a list indexed by [loc]), and the
      code runs in a state monad over that heap that may also raise.
    - A Python dict is an association list kept in insertion order
      (assignment to a present key keeps its position, a new key goes at
      the end, [del] removes the entry); a Python set is a [gset]. *)

From Stdlib Require Import ZArith Bool Floats.
From stdpp Require Import base list gmap sets strings sorting.

(* ================================================================== *)
(** ** InstanceInfo and the load calculator *)

(** Modelled from the spec: the record [InstanceInfo] of
    [llumnix/instance_info.py], which is not among the sources; its fields
    are those listed in the spec's data model. *)
Record InstanceInfo := mkInstanceInfo {
  instance_id : string;
  num_running_request : Z;
  num_waiting_request : Z;
  num_killed_request : Z;
  num_total_gpu_block : Z;
  num_free_gpu_block : Z;
  num_used_gpu_block : Z;
  num_block_first_waiting_request : Z;
  num_block_last_running_request : Z;
  num_batched_tokens : Z;
  instance_load_dispatch_scale : float;
  instance_load_migrate : float;
  num_dispatched_request : Z
}.

(** Attribute assignments [info.f = v]. *)
Definition set_instance_id (i : InstanceInfo) (v : string) : InstanceInfo :=
  mkInstanceInfo v (num_running_request i) (num_waiting_request i)
    (num_killed_request i) (num_total_gpu_block i) (num_free_gpu_block i)
    (num_used_gpu_block i) (num_block_first_waiting_request i)
    (num_block_last_running_request i) (num_batched_tokens i)
    (instance_load_dispatch_scale i) (instance_load_migrate i)
    (num_dispatched_request i).

Definition set_num_running_request (i : InstanceInfo) (v : Z) : InstanceInfo :=
  mkInstanceInfo (instance_id i) v (num_waiting_request i)
    (num_killed_request i) (num_total_gpu_block i) (num_free_gpu_block i)
    (num_used_gpu_block i) (num_block_first_waiting_request i)
    (num_block_last_running_request i) (num_batched_tokens i)
    (instance_load_dispatch_scale i) (instance_load_migrate i)
    (num_dispatched_request i).

Definition set_num_free_gpu_block (i : InstanceInfo) (v : Z) : InstanceInfo :=
  mkInstanceInfo (instance_id i) (num_running_request i) (num_waiting_request i)
    (num_killed_request i) (num_total_gpu_block i) v
    (num_used_gpu_block i) (num_block_first_waiting_request i)
    (num_block_last_running_request i) (num_batched_tokens i)
    (instance_load_dispatch_scale i) (instance_load_migrate i)
    (num_dispatched_request i).

Definition set_instance_load_dispatch_scale (i : InstanceInfo) (v : float) : InstanceInfo :=
  mkInstanceInfo (instance_id i) (num_running_request i) (num_waiting_request i)
    (num_killed_request i) (num_total_gpu_block i) (num_free_gpu_block i)
    (num_used_gpu_block i) (num_block_first_waiting_request i)
    (num_block_last_running_request i) (num_batched_tokens i)
    v (instance_load_migrate i) (num_dispatched_request i).

Definition set_instance_load_migrate (i : InstanceInfo) (v : float) : InstanceInfo :=
  mkInstanceInfo (instance_id i) (num_running_request i) (num_waiting_request i)
    (num_killed_request i) (num_total_gpu_block i) (num_free_gpu_block i)
    (num_used_gpu_block i) (num_block_first_waiting_request i)
    (num_block_last_running_request i) (num_batched_tokens i)
    (instance_load_dispatch_scale i) v (num_dispatched_request i).

Definition set_num_dispatched_request (i : InstanceInfo) (v : Z) : InstanceInfo :=
  mkInstanceInfo (instance_id i) (num_running_request i) (num_waiting_request i)
    (num_killed_request i) (num_total_gpu_block i) (num_free_gpu_block i)
    (num_used_gpu_block i) (num_block_first_waiting_request i)
    (num_block_last_running_request i) (num_batched_tokens i)
    (instance_load_dispatch_scale i) (instance_load_migrate i) v.

(** Modelled from the spec: the canonical fresh InstanceInfo returned by
    [ScaleScheduler.get_empty_instance_info] (not among the sources): all
    counters zero, free = total = 0 blocks, both derived loads -inf. *)
Definition empty_instance_info : InstanceInfo :=
  mkInstanceInfo "" 0 0 0 0 0 0 0 0 0
    PrimFloat.neg_infinity PrimFloat.neg_infinity 0.

#[global] Instance InstanceInfo_inhabited : Inhabited InstanceInfo :=
  populate empty_instance_info.

(** The [action] argument of [compute_instance_load]. *)
Inductive action := dispatch_action | migrate_action.

(** Modelled from the spec: [InstanceLoadCalculator] of
    [llumnix/instance_info.py] (not among the sources).  The spec leaves
    the load formula open, so it is a field: every statement below holds
    for every formula. *)
Record InstanceLoadCalculator := mkInstanceLoadCalculator {
  load_metric : string;
  enable_prefill_migrate : bool;
  compute_instance_load : InstanceInfo -> action -> float
}.

(* ================================================================== *)
(** ** Objects, the heap and the monad *)

Abbreviation loc := nat.
Abbreviation heap := (list InstanceInfo).

(** A computation reads and writes the heap and may raise. *)
Definition M (A : Type) : Type := heap -> option (A * heap).

Definition ret {A} (x : A) : M A := fun h => Some (x, h).
Definition bind {A B} (m : M A) (k : A -> M B) : M B :=
  fun h => match m h with Some (x, h') => k x h' | None => None end.
Definition raise {A} : M A := fun _ => None.

Notation "'let*' x := m 'in' k" := (bind m (fun x => k))
  (at level 200, x name, m at level 100, k at level 200).

Definition read_heap : M heap := fun h => Some (h, h).
Definition get (l : loc) : M InstanceInfo := fun h => Some (h !!! l, h).
Definition put (l : loc) (i : InstanceInfo) : M unit :=
  fun h => Some (tt, <[l := i]> h).
Definition alloc (i : InstanceInfo) : M loc :=
  fun h => Some (length h, h ++ [i]).

(** [copy.deepcopy(obj)]: a fresh object with the same fields. *)
Definition deepcopy (l : loc) : M loc := let* i := get l in alloc i.

(** A Python dict [str -> InstanceInfo], in insertion order. *)
Abbreviation registry := (list (string * loc)).

Fixpoint dict_get (d : registry) (k : string) : option loc :=
  match d with
  | [] => None
  | (k', v) :: t => if String.eqb k' k then Some v else dict_get t k
  end.

Definition dict_contains (d : registry) (k : string) : bool :=
  bool_decide (k ∈ d.*1).

(** [d[k] = v]. *)
Fixpoint dict_set (d : registry) (k : string) (v : loc) : registry :=
  match d with
  | [] => [(k, v)]
  | (k', v') :: t =>
      if String.eqb k' k then (k, v) :: t else (k', v') :: dict_set t k v
  end.

(** [del d[k]]. *)
Fixpoint dict_del (d : registry) (k : string) : registry :=
  match d with
  | [] => []
  | (k', v') :: t => if String.eqb k' k then t else (k', v') :: dict_del t k
  end.

Definition dict_values (d : registry) : list loc := d.*2.

(* ================================================================== *)
(** ** Migration policies ([migration_scheduler.py]) *)

Inductive policy_class := Balanced | PrefillConstrained | PrefillRelaxed.

(** An instance of a [CheckMigratePolicy] subclass. *)
Record CheckMigratePolicy := mkCheckMigratePolicy {
  policy_class_of : policy_class;
  migrate_out_load_threshold : float;
  instance_load_calculator : InstanceLoadCalculator
}.

Definition pair_ids := list (string * string).

(** Filter of [left_instance_infos] (migrate-in candidates). *)
Definition migrate_in_filter (thr : float) (i : InstanceInfo) : bool :=
  Z.eqb (num_killed_request i) 0 && PrimFloat.ltb (instance_load_migrate i) thr.

(** Filter of [right_instance_infos] under Balanced and PrefillConstrained
    (migrate-out candidates). *)
Definition migrate_out_filter (thr : float) (i : InstanceInfo) : bool :=
  Z.ltb 0 (num_killed_request i) || PrimFloat.ltb thr (instance_load_migrate i).

(** [Balanced._compute_instance_load_after_migrate]. *)
Definition compute_instance_load_after_migrate (p : CheckMigratePolicy)
    (l : loc) (is_migrate_in : bool) : M float :=
  let* c := deepcopy l in
  let* i := get c in
  let nb := num_block_last_running_request i in
  let* _ :=
    (if is_migrate_in then
       let* i1 := get c in
       let* _ := put c (set_num_running_request i1 (num_running_request i1 + 1)) in
       let* i2 := get c in
       put c (set_num_free_gpu_block i2 (num_free_gpu_block i2 - nb))
     else
       let* i1 := get c in
       let* _ := put c (set_num_running_request i1 (num_running_request i1 - 1)) in
       let* i2 := get c in
       put c (set_num_free_gpu_block i2 (num_free_gpu_block i2 + nb))) in
  let* i' := get c in
  ret (compute_instance_load (instance_load_calculator p) i' migrate_action).

(** The loop of [Balanced.check_migrate]; [combine left right] is
    [range(min(len(left), len(right)))] read position-wise, and [acc] is
    [migrate_instance_pairs]. *)
Fixpoint Balanced_loop (p : CheckMigratePolicy) (zipped : list (loc * loc))
    (acc : pair_ids) : M pair_ids :=
  match zipped with
  | [] => ret acc
  | (li, ri) :: rest =>
      let* left := get li in
      let* right := get ri in
      let load_diff_before_mig :=
        PrimFloat.sub (instance_load_migrate right) (instance_load_migrate left) in
      let* left_load_after_mig := compute_instance_load_after_migrate p li true in
      let* right_load_after_mig := compute_instance_load_after_migrate p ri false in
      if PrimFloat.ltb (migrate_out_load_threshold p) left_load_after_mig
      then Balanced_loop p rest acc
      else
        let load_diff_after_mig := PrimFloat.sub right_load_after_mig left_load_after_mig in
        let* left' := get li in
        if (PrimFloat.ltb 0 load_diff_after_mig
            && PrimFloat.ltb load_diff_after_mig load_diff_before_mig)
           || PrimFloat.eqb (instance_load_migrate left') PrimFloat.neg_infinity
        then
          let* right' := get ri in
          Balanced_loop p rest (acc ++ [(instance_id right', instance_id left')])
        else Balanced_loop p rest acc
  end.

Definition Balanced_check_migrate (p : CheckMigratePolicy)
    (sorted_instance_infos : list loc) : M pair_ids :=
  let* h := read_heap in
  let thr := migrate_out_load_threshold p in
  let left_instance_infos :=
    filter (fun l => migrate_in_filter thr (h !!! l) = true) sorted_instance_infos in
  let right_instance_infos :=
    filter (fun l => migrate_out_filter thr (h !!! l) = true) (rev sorted_instance_infos) in
  Balanced_loop p (combine left_instance_infos right_instance_infos) [].

(** The pairs [(right[i].instance_id, left[i].instance_id)] for every
    position [i], unconditionally. *)
Definition zip_ids (h : heap) (zipped : list (loc * loc)) : pair_ids :=
  map (fun lr => (instance_id (h !!! lr.2), instance_id (h !!! lr.1))) zipped.

Definition PrefillConstrained_check_migrate (p : CheckMigratePolicy)
    (sorted_instance_infos : list loc) : M pair_ids :=
  let* h := read_heap in
  let thr := migrate_out_load_threshold p in
  let left_instance_infos :=
    filter (fun l => migrate_in_filter thr (h !!! l) = true) sorted_instance_infos in
  let right_instance_infos :=
    filter (fun l => migrate_out_filter thr (h !!! l) = true) (rev sorted_instance_infos) in
  ret (zip_ids h (combine left_instance_infos right_instance_infos)).

Definition PrefillRelaxed_check_migrate (p : CheckMigratePolicy)
    (sorted_instance_infos : list loc) : M pair_ids :=
  let* h := read_heap in
  let thr := migrate_out_load_threshold p in
  let left_instance_infos :=
    filter (fun l => migrate_in_filter thr (h !!! l) = true) sorted_instance_infos in
  let right_instance_infos := rev sorted_instance_infos in
  ret (zip_ids h (combine left_instance_infos right_instance_infos)).

(** Dynamic dispatch of [check_migrate] on the policy object. *)
Definition policy_check_migrate (p : CheckMigratePolicy) : list loc -> M pair_ids :=
  match policy_class_of p with
  | Balanced => Balanced_check_migrate p
  | PrefillConstrained => PrefillConstrained_check_migrate p
  | PrefillRelaxed => PrefillRelaxed_check_migrate p
  end.

(** [CheckMigratePolicyFactory.get_policy]: the lookup in
    [_POLICY_REGISTRY]; [None] is the [KeyError] of an unknown name. *)
Definition get_policy (policy_name : string) (thr : float)
    (calc : InstanceLoadCalculator) : option CheckMigratePolicy :=
  if String.eqb policy_name "balanced" then Some (mkCheckMigratePolicy Balanced thr calc)
  else if String.eqb policy_name "prefill_constrained" then
    Some (mkCheckMigratePolicy PrefillConstrained thr calc)
  else if String.eqb policy_name "prefill_relaxed" then
    Some (mkCheckMigratePolicy PrefillRelaxed thr calc)
  else None.

(* ================================================================== *)
(** ** [MigrationScheduler] *)

(** [sorted(xs, key=key)]: Python's sort is stable and compares keys with
    [<] only; for keys that are not NaN every stable sort gives the same
    list, here a stable insertion sort. *)
Fixpoint insort (key : loc -> float) (x : loc) (ys : list loc) : list loc :=
  match ys with
  | [] => [x]
  | y :: t => if PrimFloat.ltb (key x) (key y) then x :: y :: t else y :: insort key x t
  end.

Definition sorted_by (key : loc -> float) (xs : list loc) : list loc :=
  fold_left (fun acc x => insort key x acc) xs [].

Record MigrationScheduler := mkMigrationScheduler {
  ms_migrate_out_load_threshold : float;
  ms_instance_load_calculator : InstanceLoadCalculator;
  ms_enable_prefill_migrate : bool;
  ms_check_migrate_policy : CheckMigratePolicy;
  ms_num_instance : nat;
  ms_instance_id_set : gset string;
  ms_instance_info : option registry;        (* [None] until the first update *)
  ms_sorted_instance_infos : option (list loc)
}.

(** [MigrationScheduler.__init__]; [None] is the [KeyError] raised by the
    factory. *)
Definition new_MigrationScheduler (check_migrate_policy : string)
    (thr : float) (calc : InstanceLoadCalculator) : option MigrationScheduler :=
  let enable := enable_prefill_migrate calc in
  let policy :=
    if negb enable then get_policy "balanced" thr calc
    else get_policy check_migrate_policy thr calc in
  match policy with
  | Some p => Some (mkMigrationScheduler thr calc enable p 0 ∅ None None)
  | None => None
  end.

Definition ms_with_instance_info (ms : MigrationScheduler) (d : option registry) :=
  mkMigrationScheduler (ms_migrate_out_load_threshold ms) (ms_instance_load_calculator ms)
    (ms_enable_prefill_migrate ms) (ms_check_migrate_policy ms) (ms_num_instance ms)
    (ms_instance_id_set ms) d (ms_sorted_instance_infos ms).

Definition ms_with_ids (ms : MigrationScheduler) (s : gset string) :=
  mkMigrationScheduler (ms_migrate_out_load_threshold ms) (ms_instance_load_calculator ms)
    (ms_enable_prefill_migrate ms) (ms_check_migrate_policy ms) (size s)
    s (ms_instance_info ms) (ms_sorted_instance_infos ms).

Definition ms_with_sorted (ms : MigrationScheduler) (ls : option (list loc)) :=
  mkMigrationScheduler (ms_migrate_out_load_threshold ms) (ms_instance_load_calculator ms)
    (ms_enable_prefill_migrate ms) (ms_check_migrate_policy ms) (ms_num_instance ms)
    (ms_instance_id_set ms) (ms_instance_info ms) ls.

(** [MigrationScheduler.update_instance_infos]: it keeps a reference to
    the caller's dict; every read of it below follows a fresh call, so the
    snapshot taken at the call is what the reads see. *)
Definition MigrationScheduler_update_instance_infos (ms : MigrationScheduler)
    (d : registry) : MigrationScheduler :=
  ms_with_instance_info ms (Some d).

Definition MigrationScheduler_add_instance (ms : MigrationScheduler)
    (instance_id : string) : MigrationScheduler :=
  ms_with_ids ms ({[instance_id]} ∪ ms_instance_id_set ms).

(** [set.remove] raises [KeyError] on an absent element. *)
Definition MigrationScheduler_remove_instance (ms : MigrationScheduler)
    (instance_id : string) : option MigrationScheduler :=
  if bool_decide (instance_id ∈ ms_instance_id_set ms)
  then Some (ms_with_ids ms (ms_instance_id_set ms ∖ {[instance_id]}))
  else None.

(** [MigrationScheduler._sort_instance_infos]; [reverse=True] is Python's
    stable descending sort. *)
Definition MigrationScheduler_sort_instance_infos (ms : MigrationScheduler)
    (descending : bool) : M MigrationScheduler :=
  match ms_instance_info ms with
  | None => raise                            (* [None.values()] *)
  | Some d =>
      let* h := read_heap in
      let key := fun l => instance_load_migrate (h !!! l) in
      let instance_infos := dict_values d in
      let s := if descending then rev (sorted_by key (rev instance_infos))
               else sorted_by key instance_infos in
      ret (ms_with_sorted ms (Some s))
  end.

Definition MigrationScheduler_check_migrate (ms : MigrationScheduler)
    : M (pair_ids * MigrationScheduler) :=
  let* ms1 := MigrationScheduler_sort_instance_infos ms false in
  let sorted := default [] (ms_sorted_instance_infos ms1) in
  let* pairs := policy_check_migrate (ms_check_migrate_policy ms1) sorted in
  ret (pairs, ms1).

(* ================================================================== *)
(** ** The other sub-schedulers *)

(** Modelled from the spec: [DispatchScheduler]
    ([llumnix/global_scheduler/dispatch_scheduler.py] is not among the
    sources).  It mirrors the membership and the last snapshot. *)
Record DispatchScheduler := mkDispatchScheduler {
  ds_dispatch_policy : string;
  ds_instance_load_calculator : InstanceLoadCalculator;
  ds_num_instance : nat;
  ds_instance_id_set : gset string;
  ds_instance_info : option registry
}.

Definition new_DispatchScheduler (dispatch_policy : string)
    (calc : InstanceLoadCalculator) : option DispatchScheduler :=
  if bool_decide (dispatch_policy ∈ ["load"; "queue"; "flood"]%string)
  then Some (mkDispatchScheduler dispatch_policy calc 0 ∅ None)
  else None.

Definition DispatchScheduler_update_instance_infos (ds : DispatchScheduler)
    (d : registry) : DispatchScheduler :=
  mkDispatchScheduler (ds_dispatch_policy ds) (ds_instance_load_calculator ds)
    (ds_num_instance ds) (ds_instance_id_set ds) (Some d).

Definition ds_with_ids (ds : DispatchScheduler) (s : gset string) :=
  mkDispatchScheduler (ds_dispatch_policy ds) (ds_instance_load_calculator ds)
    (size s) s (ds_instance_info ds).

Definition DispatchScheduler_add_instance (ds : DispatchScheduler) (id : string) :=
  ds_with_ids ds ({[id]} ∪ ds_instance_id_set ds).

Definition DispatchScheduler_remove_instance (ds : DispatchScheduler)
    (id : string) : option DispatchScheduler :=
  if bool_decide (id ∈ ds_instance_id_set ds)
  then Some (ds_with_ids ds (ds_instance_id_set ds ∖ {[id]})) else None.

(** [dispatch_better policy a b]: [a] is strictly preferred to [b]
    (spec 4.2: the policy key, then [num_dispatched_request], then the
    id; [flood] prefers the largest count and inverts the chain). *)
Definition dispatch_better (policy : string) (a b : InstanceInfo) : bool :=
  let nda := num_dispatched_request a in
  let ndb := num_dispatched_request b in
  let tie := Z.ltb nda ndb
             || (Z.eqb nda ndb && String.ltb (instance_id a) (instance_id b)) in
  if String.eqb policy "load" then
    PrimFloat.ltb (instance_load_dispatch_scale a) (instance_load_dispatch_scale b)
    || (PrimFloat.eqb (instance_load_dispatch_scale a) (instance_load_dispatch_scale b) && tie)
  else if String.eqb policy "queue" then
    Z.ltb (num_waiting_request a) (num_waiting_request b)
    || (Z.eqb (num_waiting_request a) (num_waiting_request b) && tie)
  else
    Z.ltb ndb nda || (Z.eqb nda ndb && String.ltb (instance_id b) (instance_id a)).

Fixpoint dispatch_select (policy : string) (h : heap) (best : loc) (ls : list loc) : loc :=
  match ls with
  | [] => best
  | l :: t =>
      dispatch_select policy h
        (if dispatch_better policy (h !!! l) (h !!! best) then l else best) t
  end.

(** Modelled from the spec: [DispatchScheduler.dispatch]: raises on an
    empty registry, otherwise picks an instance and increments its
    [num_dispatched_request] (in the shared object). *)
Definition DispatchScheduler_dispatch (ds : DispatchScheduler) : M string :=
  match ds_instance_info ds with
  | None | Some [] => raise
  | Some ((_, l0) :: rest) =>
      let* h := read_heap in
      let l := dispatch_select (ds_dispatch_policy ds) h l0 (dict_values rest) in
      let* i := get l in
      let* _ := put l (set_num_dispatched_request i (num_dispatched_request i + 1)) in
      let* i' := get l in
      ret (instance_id i')
  end.

(** Modelled from the spec: [ScaleScheduler]
    ([llumnix/global_scheduler/scale_scheduler.py] is not among the
    sources). *)
Record ScaleScheduler := mkScaleScheduler {
  ss_scale_up_threshold : float;
  ss_scale_down_threshold : float;
  ss_scale_policy : string;
  ss_instance_load_calculator : InstanceLoadCalculator;
  ss_num_instance : nat;
  ss_instance_id_set : gset string;
  ss_instance_info : option registry
}.

Definition new_ScaleScheduler (up down : float) (scale_policy : string)
    (calc : InstanceLoadCalculator) : option ScaleScheduler :=
  if bool_decide (scale_policy ∈ ["max_load"; "avg_load"]%string)
     && negb (PrimFloat.ltb up down)
  then Some (mkScaleScheduler up down scale_policy calc 0 ∅ None)
  else None.

Definition ScaleScheduler_update_instance_infos (ss : ScaleScheduler)
    (d : registry) : ScaleScheduler :=
  mkScaleScheduler (ss_scale_up_threshold ss) (ss_scale_down_threshold ss)
    (ss_scale_policy ss) (ss_instance_load_calculator ss)
    (ss_num_instance ss) (ss_instance_id_set ss) (Some d).

Definition ss_with_ids (ss : ScaleScheduler) (s : gset string) :=
  mkScaleScheduler (ss_scale_up_threshold ss) (ss_scale_down_threshold ss)
    (ss_scale_policy ss) (ss_instance_load_calculator ss)
    (size s) s (ss_instance_info ss).

Definition ScaleScheduler_add_instance (ss : ScaleScheduler) (id : string) :=
  ss_with_ids ss ({[id]} ∪ ss_instance_id_set ss).

Definition ScaleScheduler_remove_instance (ss : ScaleScheduler)
    (id : string) : option ScaleScheduler :=
  if bool_decide (id ∈ ss_instance_id_set ss)
  then Some (ss_with_ids ss (ss_instance_id_set ss ∖ {[id]})) else None.

(** Modelled from the spec: [ScaleScheduler.check_scale]: compare the
    maximum (or mean) [instance_load_dispatch_scale] with the thresholds;
    the spec says nothing of an empty registry, here [(0, 0)]. *)
Definition ScaleScheduler_check_scale (ss : ScaleScheduler) : M (Z * Z) :=
  match ss_instance_info ss with
  | None => raise
  | Some [] => ret (0%Z, 0%Z)
  | Some ((_, l0) :: rest) =>
      let* h := read_heap in
      let loads := map (fun l => instance_load_dispatch_scale (h !!! l)) (l0 :: dict_values rest) in
      let aggregate :=
        if String.eqb (ss_scale_policy ss) "max_load" then
          fold_left (fun m x => if PrimFloat.ltb m x then x else m) loads
            (instance_load_dispatch_scale (h !!! l0))
        else
          PrimFloat.div (fold_left PrimFloat.add loads 0%float)
            (fold_left (fun n _ => PrimFloat.add n 1%float) loads 0%float) in
      if PrimFloat.ltb (ss_scale_up_threshold ss) aggregate then ret (1%Z, 0%Z)
      else if PrimFloat.ltb aggregate (ss_scale_down_threshold ss) then ret (0%Z, 1%Z)
      else ret (0%Z, 0%Z)
  end.

(** Modelled from the spec: [ScaleScheduler.get_empty_instance_info]
    returns a new object each call. *)
Definition get_empty_instance_info : M loc := alloc empty_instance_info.

(* ================================================================== *)
(** ** [GlobalScheduler] ([global_scheduler.py]) *)

(** Modelled from the spec: [GlobalSchedulerConfig] ([llumnix/config.py]
    is not among the sources), with the options of spec 6.1. *)
Record GlobalSchedulerConfig := mkGlobalSchedulerConfig {
  cfg_load_metric : string;
  cfg_dispatch_policy : string;
  cfg_check_migrate_policy : string;
  cfg_scale_policy : string;
  cfg_migrate_out_load_threshold : float;
  cfg_scale_up_threshold : float;
  cfg_scale_down_threshold : float;
  cfg_enable_prefill_migrate : bool
}.

Record GlobalScheduler := mkGlobalScheduler {
  gs_global_scheduler_config : GlobalSchedulerConfig;
  gs_instance_load_calculator : InstanceLoadCalculator;
  gs_dispatch_scheduler : DispatchScheduler;
  gs_migrate_scheduler : MigrationScheduler;
  gs_scale_scheduler : ScaleScheduler;
  gs_num_instance : nat;
  gs_instance_id_set : gset string;
  gs_instance_info : registry
}.

(** [GlobalScheduler.__init__]; [load_formula] is the load formula of the
    calculator for a [load_metric] and [enable_prefill_migrate], which the
    spec leaves open. *)
Definition new_GlobalScheduler
    (load_formula : string -> bool -> InstanceInfo -> action -> float)
    (cfg : GlobalSchedulerConfig) : option GlobalScheduler :=
  let calc := mkInstanceLoadCalculator (cfg_load_metric cfg) (cfg_enable_prefill_migrate cfg)
                (load_formula (cfg_load_metric cfg) (cfg_enable_prefill_migrate cfg)) in
  match new_DispatchScheduler (cfg_dispatch_policy cfg) calc,
        new_MigrationScheduler (cfg_check_migrate_policy cfg)
          (cfg_migrate_out_load_threshold cfg) calc,
        new_ScaleScheduler (cfg_scale_up_threshold cfg) (cfg_scale_down_threshold cfg)
          (cfg_scale_policy cfg) calc with
  | Some ds, Some ms, Some ss => Some (mkGlobalScheduler cfg calc ds ms ss 0 ∅ [])
  | _, _, _ => None
  end.

Definition gs_with_subs (gs : GlobalScheduler) ds ms ss :=
  mkGlobalScheduler (gs_global_scheduler_config gs) (gs_instance_load_calculator gs)
    ds ms ss (gs_num_instance gs) (gs_instance_id_set gs) (gs_instance_info gs).

Definition gs_with_info (gs : GlobalScheduler) (d : registry) :=
  mkGlobalScheduler (gs_global_scheduler_config gs) (gs_instance_load_calculator gs)
    (gs_dispatch_scheduler gs) (gs_migrate_scheduler gs) (gs_scale_scheduler gs)
    (gs_num_instance gs) (gs_instance_id_set gs) d.

Definition gs_with_ids (gs : GlobalScheduler) (s : gset string) :=
  mkGlobalScheduler (gs_global_scheduler_config gs) (gs_instance_load_calculator gs)
    (gs_dispatch_scheduler gs) (gs_migrate_scheduler gs) (gs_scale_scheduler gs)
    (size s) s (gs_instance_info gs).

(** The loop of [update_instance_infos]: the incoming object is updated
    in place and stored under its id. *)
Fixpoint update_instance_infos_loop (calc : InstanceLoadCalculator)
    (instance_infos : list loc) (d : registry) : M registry :=
  match instance_infos with
  | [] => ret d
  | l :: rest =>
      let* info := get l in
      if dict_contains d (instance_id info) then
        let* i0 := get l in
        let* _ := put l (set_instance_load_dispatch_scale i0
                           (compute_instance_load calc i0 dispatch_action)) in
        let* i1 := get l in
        let* _ := put l (set_instance_load_migrate i1
                           (compute_instance_load calc i1 migrate_action)) in
        let* i2 := get l in
        update_instance_infos_loop calc rest (dict_set d (instance_id i2) l)
      else update_instance_infos_loop calc rest d
  end.

Definition GlobalScheduler_update_instance_infos (gs : GlobalScheduler)
    (instance_infos : list loc) : M (unit * GlobalScheduler) :=
  let* d := update_instance_infos_loop (gs_instance_load_calculator gs)
              instance_infos (gs_instance_info gs) in
  ret (tt, gs_with_info gs d).

Definition GlobalScheduler_dispatch (gs : GlobalScheduler) : M (string * GlobalScheduler) :=
  let ds := DispatchScheduler_update_instance_infos (gs_dispatch_scheduler gs)
              (gs_instance_info gs) in
  let* instance_id := DispatchScheduler_dispatch ds in
  ret (instance_id, gs_with_subs gs ds (gs_migrate_scheduler gs) (gs_scale_scheduler gs)).

Definition GlobalScheduler_check_migrate (gs : GlobalScheduler)
    : M (pair_ids * GlobalScheduler) :=
  let ms := MigrationScheduler_update_instance_infos (gs_migrate_scheduler gs)
              (gs_instance_info gs) in
  let* r := MigrationScheduler_check_migrate ms in
  ret (r.1, gs_with_subs gs (gs_dispatch_scheduler gs) r.2 (gs_scale_scheduler gs)).

Definition GlobalScheduler_check_scale (gs : GlobalScheduler)
    : M ((Z * Z) * GlobalScheduler) :=
  let ss := ScaleScheduler_update_instance_infos (gs_scale_scheduler gs)
              (gs_instance_info gs) in
  let* r := ScaleScheduler_check_scale ss in
  ret (r, gs_with_subs gs (gs_dispatch_scheduler gs) (gs_migrate_scheduler gs) ss).

(** [_add_instance]. *)
Definition GlobalScheduler_add_instance (gs : GlobalScheduler) (id : string)
    : GlobalScheduler :=
  let gs1 := gs_with_ids gs ({[id]} ∪ gs_instance_id_set gs) in
  let d := gs_instance_info gs1 in
  gs_with_subs gs1
    (DispatchScheduler_add_instance
       (DispatchScheduler_update_instance_infos (gs_dispatch_scheduler gs1) d) id)
    (MigrationScheduler_add_instance
       (MigrationScheduler_update_instance_infos (gs_migrate_scheduler gs1) d) id)
    (ScaleScheduler_add_instance
       (ScaleScheduler_update_instance_infos (gs_scale_scheduler gs1) d) id).

(** [_remove_instance]; each [set.remove] raises on an absent id. *)
Definition GlobalScheduler_remove_instance (gs : GlobalScheduler) (id : string)
    : option GlobalScheduler :=
  if bool_decide (id ∈ gs_instance_id_set gs) then
    let gs1 := gs_with_ids gs (gs_instance_id_set gs ∖ {[id]}) in
    let d := gs_instance_info gs1 in
    match DispatchScheduler_remove_instance
            (DispatchScheduler_update_instance_infos (gs_dispatch_scheduler gs1) d) id,
          MigrationScheduler_remove_instance
            (MigrationScheduler_update_instance_infos (gs_migrate_scheduler gs1) d) id,
          ScaleScheduler_remove_instance
            (ScaleScheduler_update_instance_infos (gs_scale_scheduler gs1) d) id with
    | Some ds, Some ms, Some ss => Some (gs_with_subs gs1 ds ms ss)
    | _, _, _ => None
    end
  else None.

Definition lift_option {A} (o : option A) : M A :=
  fun h => match o with Some x => Some (x, h) | None => None end.

Fixpoint scale_up_loop (instance_ids : list string) (gs : GlobalScheduler)
    : M GlobalScheduler :=
  match instance_ids with
  | [] => ret gs
  | ins_id :: rest =>
      if dict_contains (gs_instance_info gs) ins_id then scale_up_loop rest gs
      else
        let* new_intance_info := get_empty_instance_info in
        let* i := get new_intance_info in
        let* _ := put new_intance_info (set_instance_id i ins_id) in
        let gs1 := gs_with_info gs (dict_set (gs_instance_info gs) ins_id new_intance_info) in
        scale_up_loop rest (GlobalScheduler_add_instance gs1 ins_id)
  end.

Fixpoint scale_down_loop (instance_ids : list string) (gs : GlobalScheduler)
    : M GlobalScheduler :=
  match instance_ids with
  | [] => ret gs
  | ins_id :: rest =>
      if dict_contains (gs_instance_info gs) ins_id then
        let gs1 := gs_with_info gs (dict_del (gs_instance_info gs) ins_id) in
        let* gs2 := lift_option (GlobalScheduler_remove_instance gs1 ins_id) in
        scale_down_loop rest gs2
      else scale_down_loop rest gs
  end.

(** [scale_up] / [scale_down]: a single [str] argument is the one-element
    list. *)
Definition GlobalScheduler_scale_up (gs : GlobalScheduler) (instance_ids : list string)
    : M (unit * GlobalScheduler) :=
  let* gs' := scale_up_loop instance_ids gs in ret (tt, gs').

Definition GlobalScheduler_scale_down (gs : GlobalScheduler) (instance_ids : list string)
    : M (unit * GlobalScheduler) :=
  let* gs' := scale_down_loop instance_ids gs in ret (tt, gs').

(* ================================================================== *)
(** ** Auxiliary definitions for the statements *)

(** The object [_compute_instance_load_after_migrate] builds: the deep
    copy after its two attribute updates. *)
Definition project (i : InstanceInfo) (is_migrate_in : bool) : InstanceInfo :=
  let nb := num_block_last_running_request i in
  if is_migrate_in then
    let i1 := set_num_running_request i (num_running_request i + 1) in
    set_num_free_gpu_block i1 (num_free_gpu_block i1 - nb)
  else
    let i1 := set_num_running_request i (num_running_request i - 1) in
    set_num_free_gpu_block i1 (num_free_gpu_block i1 + nb).

Definition projected_load (p : CheckMigratePolicy) (i : InstanceInfo) (is_migrate_in : bool) : float :=
  compute_instance_load (instance_load_calculator p) (project i is_migrate_in) migrate_action.

(** The acceptance test of one zipped position of [Balanced.check_migrate]. *)
Definition balanced_accept (p : CheckMigratePolicy) (left right : InstanceInfo) : bool :=
  let la := projected_load p left true in
  let ra := projected_load p right false in
  negb (PrimFloat.ltb (migrate_out_load_threshold p) la)
  && ((PrimFloat.ltb 0 (PrimFloat.sub ra la)
       && PrimFloat.ltb (PrimFloat.sub ra la)
            (PrimFloat.sub (instance_load_migrate right) (instance_load_migrate left)))
      || PrimFloat.eqb (instance_load_migrate left) PrimFloat.neg_infinity).

(** The heap [h'] keeps every object of [h] as it was (it may have new
    ones). *)
Definition heap_ext (h h' : heap) : Prop :=
  length h <= length h' /\ forall l, l < length h -> h' !! l = h !! l.

(** A registry is well formed in a heap: its keys are distinct, its
    objects exist, and each is stored under its own [instance_id] (as
    [scale_up] and [update_instance_infos] store them). *)
Definition registry_wf (h : heap) (d : registry) : bool :=
  bool_decide (NoDup d.*1)
  && forallb (fun kv => Nat.ltb kv.2 (length h) && String.eqb (instance_id (h !!! kv.2)) kv.1) d.

Definition valid_pairs (h : heap) (zs : list (loc * loc)) : Prop :=
  forall lr, lr ∈ zs -> lr.1 < length h /\ lr.2 < length h.

(** What each policy returns, read off the code as a pure function. *)
Definition left_of (h : heap) (thr : float) (sorted : list loc) : list loc :=
  filter (fun l => migrate_in_filter thr (h !!! l) = true) sorted.

Definition right_of (h : heap) (thr : float) (sorted : list loc) : list loc :=
  filter (fun l => migrate_out_filter thr (h !!! l) = true) (rev sorted).

Definition policy_pairs (h : heap) (p : CheckMigratePolicy) (sorted : list loc) : pair_ids :=
  let thr := migrate_out_load_threshold p in
  match policy_class_of p with
  | Balanced =>
      zip_ids h (filter (fun lr => balanced_accept p (h !!! lr.1) (h !!! lr.2) = true)
                   (combine (left_of h thr sorted) (right_of h thr sorted)))
  | PrefillConstrained => zip_ids h (combine (left_of h thr sorted) (right_of h thr sorted))
  | PrefillRelaxed => zip_ids h (combine (left_of h thr sorted) (rev sorted))
  end.

Definition registry_key (h : heap) : loc -> float :=
  fun l => instance_load_migrate (h !!! l).

(** The pairs returned by [GlobalScheduler.check_migrate] (when it does not
    raise). *)
Definition migrate_pairs (gs : GlobalScheduler) (h : heap) : option pair_ids :=
  option_map (fun r => r.1.1) (GlobalScheduler_check_migrate gs h).

(** The sorted list [check_migrate] hands to the policy. *)
Definition sorted_registry (gs : GlobalScheduler) (h : heap) : list loc :=
  sorted_by (registry_key h) (dict_values (gs_instance_info gs)).

(* ------------------------------------------------------------------ *)
(** Concrete states, for the instances below. *)

(** A load formula that grows with the running requests. *)
Definition example_formula (_ : string) (_ : bool) (i : InstanceInfo) (_ : action) : float :=
  if Z.ltb (num_running_request i) 1 then 1.0%float
  else if Z.ltb (num_running_request i) 5 then 2.5%float else 5.0%float.

Definition example_calc (enable : bool) : InstanceLoadCalculator :=
  mkInstanceLoadCalculator "remaining_steps" enable (example_formula "remaining_steps" enable).

Definition example_info (id : string) (running killed : Z) (load : float) : InstanceInfo :=
  mkInstanceInfo id running 0 killed 10 10 0 0 10 0 load load 0.

(** [hot] above the threshold 3.0, [cold] below it, [new] freshly scaled up. *)
Definition example_heap : heap :=
  [example_info "hot" 5 0 5.0%float; example_info "cold" 0 0 1.0%float;
   example_info "new" 0 0 PrimFloat.neg_infinity].

Definition example_config (policy : string) (enable : bool) : GlobalSchedulerConfig :=
  mkGlobalSchedulerConfig "remaining_steps" "load" policy "max_load"
    3.0%float 4.0%float 0.5%float enable.

(** A scheduler with the given registry, whose migration policy is [cls]. *)
Definition example_gs (cls : policy_class) (d : registry) : GlobalScheduler :=
  let calc := example_calc true in
  let ids : gset string := list_to_set d.*1 in
  mkGlobalScheduler (example_config "balanced" true) calc
    (mkDispatchScheduler "load" calc (size ids) ids (Some d))
    (mkMigrationScheduler 3.0%float calc true (mkCheckMigratePolicy cls 3.0%float calc)
       (size ids) ids (Some d) None)
    (mkScaleScheduler 4.0%float 0.5%float "max_load" calc (size ids) ids (Some d))
    (size ids) ids d.

Definition example_registry : registry := [("hot", 0); ("cold", 1); ("new", 2)].

(** A fresh instance (load -inf) whose projection is above the threshold. *)
Definition gated_heap : heap :=
  [example_info "hot" 5 0 5.0%float; example_info "new" 5 0 PrimFloat.neg_infinity].

(* ------------------------------------------------------------------ *)
(** Auxiliary definitions for [update_instance_infos] and the registry. *)

(** The load formula reads the counters only, not the two loads it
    derives (spec: the loads are derived from the counters). *)
Definition loads_from_counters (calc : InstanceLoadCalculator) : Prop :=
  forall i x a,
    compute_instance_load calc (set_instance_load_dispatch_scale i x) a
    = compute_instance_load calc i a /\
    compute_instance_load calc (set_instance_load_migrate i x) a
    = compute_instance_load calc i a.

(** The record [i] with both of its loads recomputed. *)
Definition refreshed (calc : InstanceLoadCalculator) (i : InstanceInfo) : InstanceInfo :=
  set_instance_load_migrate
    (set_instance_load_dispatch_scale i (compute_instance_load calc i dispatch_action))
    (compute_instance_load calc i migrate_action).

(** The last object of a batch that carries the id [k]. *)
Definition last_with_id (h : heap) (batch : list loc) (k : string) : option loc :=
  last (filter (fun l => instance_id (h !!! l) = k) batch).

(** Invariant of the registry of the global scheduler: distinct keys,
    [instance_id_set] is the key set, [num_instance] its size, and the
    three sub-schedulers mirror the id set. *)
Definition gs_inv (gs : GlobalScheduler) : bool :=
  let s := gs_instance_id_set gs in
  bool_decide (NoDup (gs_instance_info gs).*1)
  && bool_decide (s = list_to_set (gs_instance_info gs).*1)
  && Nat.eqb (gs_num_instance gs) (size s)
  && bool_decide (ds_instance_id_set (gs_dispatch_scheduler gs) = s)
  && bool_decide (ms_instance_id_set (gs_migrate_scheduler gs) = s)
  && bool_decide (ss_instance_id_set (gs_scale_scheduler gs) = s).

(** The states a global scheduler goes through: built by the constructor,
    then any sequence of public calls that return, on any heap (the
    caller allocates and updates its own objects between calls). *)
Inductive reachable : GlobalScheduler -> Prop :=
| reach_init formula cfg gs :
    new_GlobalScheduler formula cfg = Some gs -> reachable gs
| reach_update gs batch h u gs' h' :
    reachable gs ->
    GlobalScheduler_update_instance_infos gs batch h = Some ((u, gs'), h') -> reachable gs'
| reach_dispatch gs h id gs' h' :
    reachable gs -> GlobalScheduler_dispatch gs h = Some ((id, gs'), h') -> reachable gs'
| reach_check_migrate gs h ps gs' h' :
    reachable gs -> GlobalScheduler_check_migrate gs h = Some ((ps, gs'), h') -> reachable gs'
| reach_check_scale gs h r gs' h' :
    reachable gs -> GlobalScheduler_check_scale gs h = Some ((r, gs'), h') -> reachable gs'
| reach_scale_up gs ids h u gs' h' :
    reachable gs -> GlobalScheduler_scale_up gs ids h = Some ((u, gs'), h') -> reachable gs'
| reach_scale_down gs ids h u gs' h' :
    reachable gs -> GlobalScheduler_scale_down gs ids h = Some ((u, gs'), h') -> reachable gs'.

(** Two heartbeats of [cold] in one batch, at locations 3 and 4. *)
Definition dup_heap : heap :=
  example_heap ++ [example_info "cold" 2 0 2.5%float; example_info "cold" 3 0 2.5%float].

(* ------------------------------------------------------------------ *)
(** Auxiliary definitions for the remaining code paths. *)

(** [b] may follow [a] in an ascending order by [key]: [key b < key a] is
    false. *)
Definition not_below (key : loc -> float) (a b : loc) : Prop :=
  PrimFloat.ltb (key b) (key a) = false.

(** An InstanceInfo with its two derived loads blanked out: the fields
    [update_instance_infos] does not assign. *)
Definition strip_loads (i : InstanceInfo) : InstanceInfo :=
  set_instance_load_dispatch_scale (set_instance_load_migrate i 0%float) 0%float.

(** The IEEE order of the floats that are not NaN, as a lexicographic
    order on integer triples: -inf, negative finite, zeros, positive
    finite, +inf. *)
Definition sf_rank (f : spec_float) : Z * Z * Z :=
  match f with
  | S754_infinity true => (0, 0, 0)
  | S754_finite true m e => (1, - e, - Zpos m)
  | S754_zero _ => (2, 0, 0)
  | S754_finite false m e => (3, e, Zpos m)
  | S754_infinity false => (4, 0, 0)
  | S754_nan => (5, 0, 0)
  end%Z.

Definition lt3 (x y : Z * Z * Z) : Prop :=
  let '(c1, a1, b1) := x in
  let '(c2, a2, b2) := y in
  (c1 < c2 \/ (c1 = c2 /\ (a1 < a2 \/ (a1 = a2 /\ b1 < b2))))%Z.

(* ================================================================== *)
(** ** IEEE comparisons *)

Lemma SFcompare_swap x y :
  SFcompare y x = option_map CompOpp (SFcompare x y).
Proof.
  destruct x as [s|s| |s m e], y as [s'|s'| |s' m' e'];
    try destruct s; try destruct s'; simpl; try reflexivity;
    rewrite (Z.compare_antisym e e'); destruct (Z.compare e e'); simpl;
    try reflexivity;
    rewrite Pos.compare_cont_antisym; simpl; rewrite ?CompOpp_involutive; reflexivity.
Qed.

Lemma SFcompare_None x y :
  SFcompare x y = None -> x = S754_nan \/ y = S754_nan.
Proof.
  destruct x as [s|s| |s m e], y as [s'|s'| |s' m' e']; simpl;
    intros H; try discriminate; auto.
Qed.

Lemma ltb_nan_r a b : Prim2SF b = S754_nan -> PrimFloat.ltb a b = false.
Proof.
  intros H. rewrite ltb_spec. unfold SFltb. rewrite H.
  destruct (Prim2SF a); reflexivity.
Qed.

Lemma ltb_true_not_nan_r a b : PrimFloat.ltb a b = true -> Prim2SF b <> S754_nan.
Proof. intros H E. rewrite (ltb_nan_r a b E) in H. discriminate. Qed.

Lemma ltb_true_not_nan_l a b : PrimFloat.ltb a b = true -> Prim2SF a <> S754_nan.
Proof.
  intros H E. rewrite ltb_spec in H. unfold SFltb in H. rewrite E in H.
  discriminate.
Qed.

Lemma ltb_asym a b : PrimFloat.ltb a b = true -> PrimFloat.ltb b a = false.
Proof.
  rewrite !ltb_spec. unfold SFltb. rewrite (SFcompare_swap (Prim2SF a) (Prim2SF b)).
  destruct (SFcompare (Prim2SF a) (Prim2SF b)) as [[]|]; simpl; intros; congruence.
Qed.

Lemma sub_nan_r a b : Prim2SF b = S754_nan -> Prim2SF (PrimFloat.sub a b) = S754_nan.
Proof.
  intros H. rewrite sub_spec. unfold SF64sub, SFsub. rewrite H.
  destruct (Prim2SF a); reflexivity.
Qed.

Lemma not_ltb_leb a b :
  Prim2SF a <> S754_nan -> Prim2SF b <> S754_nan ->
  PrimFloat.ltb b a = false -> PrimFloat.leb a b = true.
Proof.
  intros Ha Hb. rewrite ltb_spec, leb_spec. unfold SFltb, SFleb.
  rewrite SFcompare_swap.
  destruct (SFcompare (Prim2SF a) (Prim2SF b)) as [[]|] eqn:E; simpl;
    try reflexivity; try discriminate.
  apply SFcompare_None in E. intros _. destruct E; contradiction.
Qed.

Lemma SFltb_rank f1 f2 :
  f1 <> S754_nan -> f2 <> S754_nan ->
  SFltb f1 f2 = true <-> lt3 (sf_rank f1) (sf_rank f2).
Proof.
  intros N1 N2. unfold SFltb, lt3.
  destruct f1 as [[]|[]| |[] m1 e1], f2 as [[]|[]| |[] m2 e2];
    try congruence; simpl;
    try (destruct (Z.compare_spec e1 e2); simpl;
         try (change (Pos.compare_cont Eq m1 m2) with (Pos.compare m1 m2);
              destruct (Pos.compare_spec m1 m2); simpl));
    split; intros; first [reflexivity | discriminate | lia].
Qed.

Lemma ltb_false_rank a b :
  Prim2SF a <> S754_nan -> Prim2SF b <> S754_nan ->
  PrimFloat.ltb a b = false <-> ~ lt3 (sf_rank (Prim2SF a)) (sf_rank (Prim2SF b)).
Proof.
  intros Na Nb. rewrite ltb_spec, <- (SFltb_rank _ _ Na Nb).
  destruct (SFltb _ _); split; congruence.
Qed.

(** On floats that are not NaN, "not below" is transitive. *)
Lemma ltb_false_trans a b c :
  Prim2SF a <> S754_nan -> Prim2SF b <> S754_nan -> Prim2SF c <> S754_nan ->
  PrimFloat.ltb b a = false -> PrimFloat.ltb c b = false -> PrimFloat.ltb c a = false.
Proof.
  intros Na Nb Nc. rewrite !ltb_false_rank by assumption.
  destruct (sf_rank (Prim2SF a)) as [[x1 x2] x3], (sf_rank (Prim2SF b)) as [[y1 y2] y3],
    (sf_rank (Prim2SF c)) as [[z1 z2] z3].
  unfold lt3. lia.
Qed.

Lemma Sorted_StronglySorted_on {A} (R : A -> A -> Prop) (P : A -> Prop) (l : list A) :
  (forall x y z, P x -> P y -> P z -> R x y -> R y z -> R x z) ->
  Forall P l -> Sorted R l -> StronglySorted R l.
Proof.
  intros T. induction l as [|x l IH]; intros F S; [constructor|].
  apply Sorted_inv in S as [S Hd].
  assert (SS : StronglySorted R l) by (apply IH; [inversion F; assumption|exact S]).
  constructor; [exact SS|].
  destruct l as [|y l']; [constructor|].
  inversion Hd as [|? ? Rxy]; subst.
  apply StronglySorted_inv in SS as [_ Fy].
  rewrite Forall_forall in F, Fy. apply Forall_forall.
  intros z Iz. apply elem_of_cons in Iz as [->|Iz]; [exact Rxy|].
  apply (T x y z); [apply F; left | apply F; right; left | apply F; right; right; exact Iz
                   | exact Rxy | apply Fy; exact Iz].
Qed.

(* ================================================================== *)
(** ** The heap: reads, writes and fresh objects *)

Lemma heap_ext_refl h : heap_ext h h.
Proof. split; auto. Qed.

Lemma heap_ext_trans h1 h2 h3 : heap_ext h1 h2 -> heap_ext h2 h3 -> heap_ext h1 h3.
Proof.
  intros [L1 E1] [L2 E2]. split; [lia|].
  intros l Hl. rewrite E2 by lia. auto.
Qed.

Lemma heap_ext_lookup_total h h' l :
  heap_ext h h' -> l < length h -> h' !!! l = h !!! l.
Proof.
  intros [_ E] Hl. rewrite !list_lookup_total_alt, E by exact Hl. reflexivity.
Qed.

Lemma heap_ext_snoc h x : heap_ext h (h ++ [x]).
Proof.
  split; [rewrite length_app; simpl; lia|].
  intros l Hl. apply lookup_app_l. exact Hl.
Qed.

Lemma lookup_total_snoc (h : heap) x : (h ++ [x]) !!! length h = x.
Proof.
  rewrite list_lookup_total_alt, lookup_app_r, Nat.sub_diag by lia. reflexivity.
Qed.

Lemma insert_snoc (h : heap) x y : <[length h := y]> (h ++ [x]) = h ++ [y].
Proof. rewrite insert_app_r_alt by lia. rewrite Nat.sub_diag. reflexivity. Qed.

Create HintDb heap.
#[local] Hint Resolve heap_ext_refl heap_ext_snoc : heap.

(** [_compute_instance_load_after_migrate] returns the load of the
    projected copy and only touches the fresh copy. *)
Lemma compute_after_spec p l b h :
  exists h', compute_instance_load_after_migrate p l b h
             = Some (projected_load p (h !!! l) b, h') /\ heap_ext h h'.
Proof.
  unfold compute_instance_load_after_migrate, deepcopy, bind, get, put, alloc, ret.
  destruct b; rewrite ?lookup_total_snoc, ?insert_snoc, ?lookup_total_snoc,
    ?insert_snoc, ?lookup_total_snoc, ?insert_snoc, ?lookup_total_snoc;
    eexists; split; try reflexivity; apply heap_ext_snoc.
Qed.
Lemma bind_get {B} l (k : InstanceInfo -> M B) h : bind (get l) k h = k (h !!! l) h.
Proof. reflexivity. Qed.
Lemma bind_eq {A B} (m : M A) (k : A -> M B) h x h' :
  m h = Some (x, h') -> bind m k h = k x h'.
Proof. intros E. unfold bind. rewrite E. reflexivity. Qed.

Lemma valid_pairs_ext h h' zs : heap_ext h h' -> valid_pairs h zs -> valid_pairs h' zs.
Proof. intros [L _] V lr I. destruct (V lr I). lia. Qed.

Lemma valid_pairs_tail h x zs : valid_pairs h (x :: zs) -> valid_pairs h zs.
Proof. intros V lr I. apply V. by right. Qed.

Lemma zip_ids_filter_ext p h h' zs :
  heap_ext h h' -> valid_pairs h zs ->
  zip_ids h' (filter (fun lr => balanced_accept p (h' !!! lr.1) (h' !!! lr.2) = true) zs)
  = zip_ids h (filter (fun lr => balanced_accept p (h !!! lr.1) (h !!! lr.2) = true) zs).
Proof.
  intros X. induction zs as [|[l r] zs IH]; intros V; [reflexivity|].
  destruct (V (l, r)) as [Vl Vr]; [by left|]. simpl in Vl, Vr.
  rewrite !filter_cons. simpl.
  rewrite !(heap_ext_lookup_total h h') by assumption.
  specialize (IH (valid_pairs_tail _ _ _ V)).
  destruct (decide _); simpl; rewrite ?IH, ?(heap_ext_lookup_total h h') by assumption; reflexivity.
Qed.

Lemma Balanced_loop_spec p zipped acc h :
  valid_pairs h zipped ->
  exists h', Balanced_loop p zipped acc h
    = Some (acc ++ zip_ids h (filter (fun lr => balanced_accept p (h !!! lr.1) (h !!! lr.2) = true) zipped), h')
    /\ heap_ext h h'.
Proof.
  revert acc h. induction zipped as [|[li ri] rest IH]; intros acc h Hv.
  - exists h. rewrite app_nil_r. split; [reflexivity|apply heap_ext_refl].
  - destruct (Hv (li, ri)) as [Vl Vr]; [by left|]. simpl in Vl, Vr.
    pose proof (valid_pairs_tail _ _ _ Hv) as Hr.
    simpl Balanced_loop. rewrite !bind_get.
    destruct (compute_after_spec p li true h) as [h1 [E1 X1]].
    rewrite (bind_eq _ _ _ _ _ E1).
    destruct (compute_after_spec p ri false h1) as [h2 [E2 X2]].
    rewrite (bind_eq _ _ _ _ _ E2).
    pose proof (heap_ext_trans _ _ _ X1 X2) as X12.
    rewrite (heap_ext_lookup_total h h1 ri X1 Vr).
    destruct (PrimFloat.ltb (migrate_out_load_threshold p) (projected_load p (h !!! li) true)) eqn:T.
    + rewrite filter_cons_False
        by (unfold balanced_accept; simpl; rewrite T; simpl; discriminate).
      destruct (IH acc h2 (valid_pairs_ext _ _ _ X12 Hr)) as [h3 [E3 X3]].
      exists h3. rewrite E3, (zip_ids_filter_ext p h h2) by assumption.
      split; [reflexivity|]. eapply heap_ext_trans; eassumption.
    + rewrite bind_get, (heap_ext_lookup_total h h2 li X12 Vl).
      match goal with |- context [if ?c then _ else _] => destruct c eqn:C end.
      * rewrite filter_cons_True
          by (unfold balanced_accept; simpl; rewrite T, C; reflexivity).
        rewrite bind_get, (heap_ext_lookup_total h h2 ri X12 Vr).
        edestruct (IH (acc ++ [(instance_id (h !!! ri), instance_id (h !!! li))]) h2
                     (valid_pairs_ext _ _ _ X12 Hr)) as [h3 [E3 X3]].
        exists h3. rewrite E3, (zip_ids_filter_ext p h h2) by assumption.
        split; [|eapply heap_ext_trans; eassumption].
        rewrite <- app_assoc. reflexivity.
      * rewrite filter_cons_False
          by (unfold balanced_accept; simpl; rewrite T, C; simpl; discriminate).
        destruct (IH acc h2 (valid_pairs_ext _ _ _ X12 Hr)) as [h3 [E3 X3]].
        exists h3. rewrite E3, (zip_ids_filter_ext p h h2) by assumption.
        split; [reflexivity|]. eapply heap_ext_trans; eassumption.
Qed.

Lemma valid_pairs_combine h (xs ys zs : list loc) :
  (forall l, l ∈ zs -> l < length h) ->
  (forall l, l ∈ xs -> l ∈ zs) -> (forall l, l ∈ ys -> l ∈ zs) ->
  valid_pairs h (combine xs ys).
Proof.
  intros V Hx Hy [a b] I. apply list_elem_of_In in I. simpl.
  split; apply V; [apply Hx | apply Hy]; apply list_elem_of_In;
    [eapply in_combine_l | eapply in_combine_r]; eassumption.
Qed.

Lemma elem_of_left_of h thr sorted l : l ∈ left_of h thr sorted -> l ∈ sorted.
Proof. unfold left_of. rewrite list_elem_of_filter. tauto. Qed.

Lemma elem_of_rev_loc (sorted : list loc) l : l ∈ rev sorted -> l ∈ sorted.
Proof. rewrite !list_elem_of_In. apply in_rev. Qed.

Lemma elem_of_right_of h thr sorted l : l ∈ right_of h thr sorted -> l ∈ sorted.
Proof. unfold right_of. rewrite list_elem_of_filter. intros [_ I]. by apply elem_of_rev_loc. Qed.

Lemma policy_check_migrate_spec p sorted h :
  (forall l, l ∈ sorted -> l < length h) ->
  exists h', policy_check_migrate p sorted h = Some (policy_pairs h p sorted, h')
             /\ heap_ext h h'.
Proof.
  intros V. unfold policy_check_migrate, policy_pairs.
  destruct (policy_class_of p).
  - unfold Balanced_check_migrate. cbn [bind read_heap].
    apply Balanced_loop_spec. apply valid_pairs_combine with sorted; auto.
    + apply elem_of_left_of.
    + apply elem_of_right_of.
  - exists h. split; [reflexivity | apply heap_ext_refl].
  - exists h. split; [reflexivity | apply heap_ext_refl].
Qed.

(** The sort permutes the objects. *)
Lemma insort_perm key x (ys : list loc) : insort key x ys ≡ₚ x :: ys.
Proof.
  induction ys as [|y ys IH]; simpl; [reflexivity|].
  destruct (PrimFloat.ltb _ _); [reflexivity|].
  rewrite IH. apply perm_swap.
Qed.

Lemma sorted_by_perm key (xs : list loc) : sorted_by key xs ≡ₚ xs.
Proof.
  unfold sorted_by.
  assert (G : forall acc, fold_left (fun acc x => insort key x acc) xs acc ≡ₚ xs ++ acc).
  { induction xs as [|x xs IH]; intros acc; simpl; [reflexivity|].
    rewrite IH, insort_perm. symmetry. apply Permutation_middle. }
  rewrite G, app_nil_r. reflexivity.
Qed.

(** [GlobalScheduler.check_migrate], read off: the pairs of the configured
    policy on the registry sorted by [instance_load_migrate]; only the
    migration sub-scheduler's fields change and the heap only grows. *)
Lemma GlobalScheduler_check_migrate_spec gs h :
  (forall l, l ∈ (gs_instance_info gs).*2 -> l < length h) ->
  exists gs' h',
    GlobalScheduler_check_migrate gs h
    = Some ((policy_pairs h (ms_check_migrate_policy (gs_migrate_scheduler gs))
               (sorted_by (registry_key h) (dict_values (gs_instance_info gs))), gs'), h')
    /\ heap_ext h h'
    /\ gs_instance_info gs' = gs_instance_info gs
    /\ gs_instance_id_set gs' = gs_instance_id_set gs
    /\ gs_num_instance gs' = gs_num_instance gs
    /\ gs_dispatch_scheduler gs' = gs_dispatch_scheduler gs
    /\ gs_scale_scheduler gs' = gs_scale_scheduler gs.
Proof.
  intros V.
  set (sorted := sorted_by (registry_key h) (dict_values (gs_instance_info gs))).
  destruct (policy_check_migrate_spec (ms_check_migrate_policy (gs_migrate_scheduler gs))
              sorted h) as [h' [E X]].
  { intros l I. apply V. unfold sorted in I. rewrite sorted_by_perm in I. exact I. }
  exists (gs_with_subs gs (gs_dispatch_scheduler gs)
            (ms_with_sorted (ms_with_instance_info (gs_migrate_scheduler gs)
                               (Some (gs_instance_info gs))) (Some sorted))
            (gs_scale_scheduler gs)), h'.
  split; [|split; [exact X|repeat split]].
  unfold GlobalScheduler_check_migrate, MigrationScheduler_check_migrate,
    MigrationScheduler_update_instance_infos, MigrationScheduler_sort_instance_infos.
  unfold bind at 1 2 3. unfold read_heap at 1. unfold ret at 1.
  cbn [ms_instance_info ms_with_instance_info ms_sorted_instance_infos
       ms_with_sorted ms_check_migrate_policy default].
  fold (registry_key h). fold sorted. unfold bind at 1. unfold id.
  rewrite E. reflexivity.
Qed.

(* ================================================================== *)
(** ** Registry lookups *)

Lemma registry_wf_spec h d :
  registry_wf h d = true <->
  NoDup d.*1 /\ forall k l, (k, l) ∈ d -> l < length h /\ instance_id (h !!! l) = k.
Proof.
  unfold registry_wf. rewrite andb_true_iff, bool_decide_eq_true, forallb_forall.
  split; intros [N F]; split; auto.
  - intros k l I. apply list_elem_of_In in I. specialize (F _ I). simpl in F.
    apply andb_true_iff in F as [F1 F2]. apply Nat.ltb_lt in F1.
    apply String.eqb_eq in F2. auto.
  - intros [k l] I. apply list_elem_of_In in I. destruct (F k l I) as [F1 F2]. simpl.
    apply andb_true_iff. split; [by apply Nat.ltb_lt | by apply String.eqb_eq].
Qed.

Lemma dict_get_elem_of (d : registry) k l :
  NoDup d.*1 -> (k, l) ∈ d -> dict_get d k = Some l.
Proof.
  induction d as [|[k' v] t IH]; intros N I; [by apply elem_of_nil in I|].
  simpl in N. apply NoDup_cons in N as [Nk Nt]. simpl.
  apply elem_of_cons in I as [E|I].
  - injection E as -> ->. by rewrite String.eqb_refl.
  - destruct (String.eqb_spec k' k) as [->|Ne].
    + exfalso. apply Nk. apply list_elem_of_fmap. exists (k, l). auto.
    + auto.
Qed.

Lemma dict_get_Some (d : registry) k l : dict_get d k = Some l -> (k, l) ∈ d.
Proof.
  induction d as [|[k' v] t IH]; simpl; [discriminate|].
  destruct (String.eqb_spec k' k) as [->|Ne]; intros E.
  - injection E as ->. by left.
  - right. auto.
Qed.

(** An object of a well-formed registry is found under its own id. *)
Lemma wf_value_lookup h d l :
  registry_wf h d = true -> l ∈ dict_values d ->
  dict_get d (instance_id (h !!! l)) = Some l /\ l < length h.
Proof.
  intros W I. apply registry_wf_spec in W as [N F].
  unfold dict_values in I. apply list_elem_of_fmap in I as [[k l'] [-> I]]. simpl.
  destruct (F k l' I) as [V ->]. split; [by apply dict_get_elem_of | exact V].
Qed.

Lemma wf_values_valid h d l :
  registry_wf h d = true -> l ∈ dict_values d -> l < length h.
Proof. intros W I. apply (wf_value_lookup h d l W I). Qed.

(** Which objects a returned pair comes from. *)
Lemma policy_pairs_elem h p sorted s d :
  (s, d) ∈ policy_pairs h p sorted ->
  exists li ri,
    li ∈ sorted /\ ri ∈ sorted /\
    s = instance_id (h !!! ri) /\ d = instance_id (h !!! li) /\
    migrate_in_filter (migrate_out_load_threshold p) (h !!! li) = true /\
    (policy_class_of p <> PrefillRelaxed ->
     migrate_out_filter (migrate_out_load_threshold p) (h !!! ri) = true) /\
    (policy_class_of p = Balanced -> balanced_accept p (h !!! li) (h !!! ri) = true).
Proof.
  unfold policy_pairs, zip_ids.
  set (thr := migrate_out_load_threshold p).
  assert (Comb : forall xs ys (li ri : loc), (li, ri) ∈ combine xs ys -> li ∈ xs /\ ri ∈ ys).
  { intros xs ys li ri I. apply list_elem_of_In in I.
    split; apply list_elem_of_In; [eapply in_combine_l | eapply in_combine_r]; eassumption. }
  assert (InL : forall li, li ∈ left_of h thr sorted ->
                  li ∈ sorted /\ migrate_in_filter thr (h !!! li) = true).
  { intros li I. unfold left_of in I. apply list_elem_of_filter in I. tauto. }
  assert (InR : forall ri, ri ∈ right_of h thr sorted ->
                  ri ∈ sorted /\ migrate_out_filter thr (h !!! ri) = true).
  { intros ri I. unfold right_of in I. apply list_elem_of_filter in I as [F I].
    split; [by apply elem_of_rev_loc | exact F]. }
  destruct (policy_class_of p) eqn:P; intros I;
    apply list_elem_of_fmap in I as [[li ri] [E I]]; simpl in E; injection E as -> ->.
  - apply list_elem_of_filter in I as [A I]. simpl in A.
    destruct (Comb _ _ _ _ I) as [[L1 L2]%InL [R1 R2]%InR].
    exists li, ri. repeat split; auto.
  - destruct (Comb _ _ _ _ I) as [[L1 L2]%InL [R1 R2]%InR].
    exists li, ri. repeat split; auto. discriminate.
  - destruct (Comb _ _ _ _ I) as [[L1 L2]%InL R1].
    exists li, ri. repeat split; auto; try congruence. by apply elem_of_rev_loc.
Qed.

(** Balanced_loop never raises and only allocates. *)
Lemma Balanced_loop_ext p zipped acc h :
  exists out h', Balanced_loop p zipped acc h = Some (out, h') /\ heap_ext h h'.
Proof.
  revert acc h. induction zipped as [|[li ri] rest IH]; intros acc h.
  - exists acc, h. split; [reflexivity | apply heap_ext_refl].
  - simpl Balanced_loop. rewrite !bind_get.
    destruct (compute_after_spec p li true h) as [h1 [E1 X1]].
    rewrite (bind_eq _ _ _ _ _ E1).
    destruct (compute_after_spec p ri false h1) as [h2 [E2 X2]].
    rewrite (bind_eq _ _ _ _ _ E2).
    pose proof (heap_ext_trans _ _ _ X1 X2) as X12.
    destruct (PrimFloat.ltb _ _).
    + destruct (IH acc h2) as [out [h3 [E3 X3]]].
      exists out, h3. split; [exact E3 | eapply heap_ext_trans; eassumption].
    + rewrite bind_get.
      match goal with |- context [if ?c then _ else _] => destruct c end.
      * rewrite bind_get.
        edestruct IH as [out [h3 [E3 X3]]].
        exists out, h3. split; [exact E3 | eapply heap_ext_trans; eassumption].
      * destruct (IH acc h2) as [out [h3 [E3 X3]]].
        exists out, h3. split; [exact E3 | eapply heap_ext_trans; eassumption].
Qed.

Lemma check_migrate_pairs_spec gs h :
  registry_wf h (gs_instance_info gs) = true ->
  migrate_pairs gs h
  = Some (policy_pairs h (ms_check_migrate_policy (gs_migrate_scheduler gs))
            (sorted_registry gs h)).
Proof.
  intros W.
  destruct (GlobalScheduler_check_migrate_spec gs h) as [gs' [h' [E _]]].
  { intros l I. apply (wf_values_valid h _ l W I). }
  unfold migrate_pairs, sorted_registry. rewrite E. reflexivity.
Qed.

(** The endpoints of a pair: both in the registry, with the properties
    the policy checked. *)
Lemma check_migrate_pair_origin gs h s d :
  registry_wf h (gs_instance_info gs) = true ->
  forall out, migrate_pairs gs h = Some out -> (s, d) ∈ out ->
  let p := ms_check_migrate_policy (gs_migrate_scheduler gs) in
  let thr := migrate_out_load_threshold p in
  exists li ri,
    dict_get (gs_instance_info gs) s = Some ri /\
    dict_get (gs_instance_info gs) d = Some li /\
    migrate_in_filter thr (h !!! li) = true /\
    (policy_class_of p <> PrefillRelaxed -> migrate_out_filter thr (h !!! ri) = true) /\
    (policy_class_of p = Balanced -> balanced_accept p (h !!! li) (h !!! ri) = true).
Proof.
  intros W out E I p thr.
  rewrite check_migrate_pairs_spec in E by exact W. injection E as <-.
  apply policy_pairs_elem in I
    as (li & ri & Li & Ri & -> & -> & F1 & F2 & F3).
  unfold sorted_registry in Li, Ri. rewrite sorted_by_perm in Li, Ri.
  exists li, ri. repeat split; auto.
  - apply (wf_value_lookup h _ ri W Ri).
  - apply (wf_value_lookup h _ li W Li).
Qed.

Lemma migrate_in_not_out thr i :
  migrate_in_filter thr i = true -> migrate_out_filter thr i = false.
Proof.
  unfold migrate_in_filter, migrate_out_filter. intros [K L]%andb_true_iff.
  apply Z.eqb_eq in K. rewrite K, (ltb_asym _ _ L). reflexivity.
Qed.

Lemma policy_check_migrate_ext p sorted h :
  exists out h', policy_check_migrate p sorted h = Some (out, h') /\ heap_ext h h'.
Proof.
  unfold policy_check_migrate. destruct (policy_class_of p).
  - unfold Balanced_check_migrate. cbn [bind read_heap]. apply Balanced_loop_ext.
  - unfold PrefillConstrained_check_migrate, bind, read_heap, ret.
    eexists _, h. split; [reflexivity | apply heap_ext_refl].
  - unfold PrefillRelaxed_check_migrate, bind, read_heap, ret.
    eexists _, h. split; [reflexivity | apply heap_ext_refl].
Qed.

(* ================================================================== *)
(** ** The claims about [check_migrate] *)

(** C1 (amended): on a well-formed registry, under [balanced] and
    [prefill_constrained] no returned pair has its source equal to its
    destination; under [prefill_relaxed] the zipped pairs are returned as
    they are, with no pair dropped. *)
Theorem check_migrate_endpoints_distinct gs h :
  registry_wf h (gs_instance_info gs) = true ->
  let p := ms_check_migrate_policy (gs_migrate_scheduler gs) in
  exists out, migrate_pairs gs h = Some out /\
    (policy_class_of p <> PrefillRelaxed -> forall s d, (s, d) ∈ out -> s <> d) /\
    (policy_class_of p = PrefillRelaxed ->
     out = zip_ids h (combine (left_of h (migrate_out_load_threshold p) (sorted_registry gs h))
                              (rev (sorted_registry gs h)))).
Proof.
  intros W p. exists (policy_pairs h p (sorted_registry gs h)).
  split; [by apply check_migrate_pairs_spec|]. split.
  - intros Hc s d I ->.
    destruct (check_migrate_pair_origin gs h d d W _ (check_migrate_pairs_spec gs h W) I)
      as (li & ri & Es & Ed & F1 & F2 & _).
    rewrite Es in Ed. injection Ed as ->.
    rewrite (migrate_in_not_out _ _ F1) in F2. specialize (F2 Hc). discriminate.
  - intros Hc. unfold policy_pairs. fold p. rewrite Hc. reflexivity.
Qed.

(** C2: under [balanced], for every returned pair (s, d), either the
    destination's projected load (one more running request,
    [num_block_last_running_request] fewer free blocks) is at most the
    threshold and the projected gap lies strictly between 0 and the gap
    before migration, or the destination's load is the -inf sentinel. *)
Theorem balanced_pairs_accepted gs h :
  registry_wf h (gs_instance_info gs) = true ->
  let p := ms_check_migrate_policy (gs_migrate_scheduler gs) in
  policy_class_of p = Balanced ->
  exists out, migrate_pairs gs h = Some out /\
    forall s d, (s, d) ∈ out ->
    exists ls ld,
      dict_get (gs_instance_info gs) s = Some ls /\
      dict_get (gs_instance_info gs) d = Some ld /\
      let la := projected_load p (h !!! ld) true in
      let ra := projected_load p (h !!! ls) false in
      ((PrimFloat.leb la (migrate_out_load_threshold p) = true
        /\ PrimFloat.ltb 0 (PrimFloat.sub ra la) = true
        /\ PrimFloat.ltb (PrimFloat.sub ra la)
             (PrimFloat.sub (instance_load_migrate (h !!! ls))
                            (instance_load_migrate (h !!! ld))) = true)
       \/ PrimFloat.eqb (instance_load_migrate (h !!! ld)) PrimFloat.neg_infinity = true).
Proof.
  intros W p Hb. exists (policy_pairs h p (sorted_registry gs h)).
  split; [by apply check_migrate_pairs_spec|].
  intros s d I.
  destruct (check_migrate_pair_origin gs h s d W _ (check_migrate_pairs_spec gs h W) I)
    as (li & ri & Es & Ed & F1 & _ & F3).
  exists ri, li. split; [exact Es|]. split; [exact Ed|].
  specialize (F3 Hb). unfold balanced_accept in F3. fold p in F3.
  set (la := projected_load p (h !!! li) true) in *.
  set (ra := projected_load p (h !!! ri) false) in *.
  cbv zeta. fold la ra.
  apply andb_true_iff in F3 as [G A]. apply negb_true_iff in G.
  apply orb_true_iff in A as [[A1 A2]%andb_true_iff | B]; [left | right; exact B].
  split; [|split; assumption].
  apply not_ltb_leb; [| |exact G].
  - intros Nl. rewrite (ltb_nan_r _ _ (sub_nan_r ra la Nl)) in A1. discriminate.
  - apply andb_true_iff in F1 as [_ F1]. exact (ltb_true_not_nan_r _ _ F1).
Qed.

(** C8: for every returned pair (s, d), the destination's record has no
    killed request and a migrate load strictly below the threshold (under
    every policy, in particular [balanced] and [prefill_constrained]). *)
Theorem check_migrate_destination_filter gs h :
  registry_wf h (gs_instance_info gs) = true ->
  let p := ms_check_migrate_policy (gs_migrate_scheduler gs) in
  exists out, migrate_pairs gs h = Some out /\
    forall s d, (s, d) ∈ out ->
    exists ld, dict_get (gs_instance_info gs) d = Some ld /\
      num_killed_request (h !!! ld) = 0%Z /\
      PrimFloat.ltb (instance_load_migrate (h !!! ld)) (migrate_out_load_threshold p) = true.
Proof.
  intros W p. exists (policy_pairs h p (sorted_registry gs h)).
  split; [by apply check_migrate_pairs_spec|].
  intros s d I.
  destruct (check_migrate_pair_origin gs h s d W _ (check_migrate_pairs_spec gs h W) I)
    as (li & ri & _ & Ed & F1 & _).
  exists li. split; [exact Ed|].
  unfold migrate_in_filter in F1. apply andb_true_iff in F1 as [K L].
  split; [by apply Z.eqb_eq | exact L].
Qed.

(** C10: under [balanced], a destination whose projected load exceeds the
    threshold is in no returned pair, whatever its current load, the -inf
    sentinel included: the threshold test comes before the sentinel test. *)
Theorem balanced_projection_gate gs h :
  registry_wf h (gs_instance_info gs) = true ->
  let p := ms_check_migrate_policy (gs_migrate_scheduler gs) in
  policy_class_of p = Balanced ->
  exists out, migrate_pairs gs h = Some out /\
    forall s d ld, dict_get (gs_instance_info gs) d = Some ld ->
    PrimFloat.ltb (migrate_out_load_threshold p) (projected_load p (h !!! ld) true) = true ->
    (s, d) ∉ out.
Proof.
  intros W p Hb. exists (policy_pairs h p (sorted_registry gs h)).
  split; [by apply check_migrate_pairs_spec|].
  intros s d ld Ed Gt I.
  destruct (check_migrate_pair_origin gs h s d W _ (check_migrate_pairs_spec gs h W) I)
    as (li & ri & _ & Ed' & _ & _ & F3).
  rewrite Ed in Ed'. injection Ed' as <-.
  specialize (F3 Hb). unfold balanced_accept in F3. fold p in F3.
  rewrite Gt in F3. discriminate.
Qed.

(** C9: [check_migrate] never raises, leaves the registry, the id set and
    [num_instance] as they were, and changes no object that existed before
    the call (the projections write only to their fresh deep copies). *)
Theorem check_migrate_read_only gs h :
  exists out gs' h',
    GlobalScheduler_check_migrate gs h = Some ((out, gs'), h') /\
    gs_instance_info gs' = gs_instance_info gs /\
    gs_instance_id_set gs' = gs_instance_id_set gs /\
    gs_num_instance gs' = gs_num_instance gs /\
    heap_ext h h'.
Proof.
  set (sorted := sorted_by (registry_key h) (dict_values (gs_instance_info gs))).
  destruct (policy_check_migrate_ext (ms_check_migrate_policy (gs_migrate_scheduler gs))
              sorted h) as [out [h' [E X]]].
  exists out, (gs_with_subs gs (gs_dispatch_scheduler gs)
            (ms_with_sorted (ms_with_instance_info (gs_migrate_scheduler gs)
                               (Some (gs_instance_info gs))) (Some sorted))
            (gs_scale_scheduler gs)), h'.
  split; [|split; [reflexivity|split; [reflexivity|split; [reflexivity|exact X]]]].
  unfold GlobalScheduler_check_migrate, MigrationScheduler_check_migrate,
    MigrationScheduler_update_instance_infos, MigrationScheduler_sort_instance_infos.
  unfold bind at 1 2 3. unfold read_heap at 1. unfold ret at 1.
  cbn [ms_instance_info ms_with_instance_info ms_sorted_instance_infos
       ms_with_sorted ms_check_migrate_policy default].
  fold (registry_key h). fold sorted. unfold bind at 1. unfold id.
  rewrite E. reflexivity.
Qed.

(** Instances: [hot] migrates to the fresh [new] under [balanced]. *)
Example balanced_example :
  migrate_pairs (example_gs Balanced example_registry) example_heap
  = Some [("hot", "new")].
Proof. vm_compute. reflexivity. Qed.

Lemma check_migrate_endpoints_distinct_witness :
  registry_wf example_heap example_registry = true /\
  exists out, migrate_pairs (example_gs Balanced example_registry) example_heap = Some out.
Proof.
  assert (W : registry_wf example_heap example_registry = true) by (vm_compute; reflexivity).
  split; [exact W|].
  destruct (check_migrate_endpoints_distinct (example_gs Balanced example_registry)
              example_heap W) as [out [E _]].
  exists out. exact E.
Defined.

(** C1, as stated, fails: under [prefill_relaxed] a lone instance below the
    threshold is both the first destination and the first source. *)
Lemma check_migrate_relaxed_self_pair :
  registry_wf example_heap [("cold", 1)] = true /\
  migrate_pairs (example_gs PrefillRelaxed [("cold", 1)]) example_heap
  = Some [("cold", "cold")].
Proof. split; vm_compute; reflexivity. Qed.

Lemma balanced_pairs_accepted_witness :
  registry_wf example_heap example_registry = true /\
  exists out, migrate_pairs (example_gs Balanced example_registry) example_heap = Some out.
Proof.
  assert (W : registry_wf example_heap example_registry = true) by (vm_compute; reflexivity).
  split; [exact W|].
  destruct (balanced_pairs_accepted (example_gs Balanced example_registry)
              example_heap W eq_refl) as [out [E _]].
  exists out. exact E.
Defined.

Lemma check_migrate_destination_filter_witness :
  registry_wf example_heap example_registry = true /\
  exists out, migrate_pairs (example_gs PrefillConstrained example_registry) example_heap = Some out.
Proof.
  assert (W : registry_wf example_heap example_registry = true) by (vm_compute; reflexivity).
  split; [exact W|].
  destruct (check_migrate_destination_filter (example_gs PrefillConstrained example_registry)
              example_heap W) as [out [E _]].
  exists out. exact E.
Defined.

Example balanced_gated_example :
  migrate_pairs (example_gs Balanced [("hot", 0); ("new", 1)]) gated_heap = Some [].
Proof. vm_compute. reflexivity. Qed.

Lemma balanced_projection_gate_witness :
  registry_wf gated_heap [("hot", 0); ("new", 1)] = true /\
  exists out, migrate_pairs (example_gs Balanced [("hot", 0); ("new", 1)]) gated_heap = Some out
    /\ ("hot", "new") ∉ out.
Proof.
  assert (W : registry_wf gated_heap [("hot", 0); ("new", 1)] = true) by (vm_compute; reflexivity).
  split; [exact W|].
  destruct (balanced_projection_gate (example_gs Balanced [("hot", 0); ("new", 1)])
              gated_heap W eq_refl) as [out [E G]].
  exists out. split; [exact E|].
  apply (G "hot" "new" 1); vm_compute; reflexivity.
Defined.

(* ================================================================== *)
(** ** Construction of the migration scheduler *)

(** C3: with [enable_prefill_migrate] false the scheduler built for any
    policy name is the one built for ["balanced"] (so every later
    [check_migrate] returns the same pairs); with it true the configured
    policy is the factory's. *)
Theorem migration_policy_resolution name thr calc :
  (enable_prefill_migrate calc = false ->
   new_MigrationScheduler name thr calc = new_MigrationScheduler "balanced" thr calc) /\
  (enable_prefill_migrate calc = true ->
   option_map ms_check_migrate_policy (new_MigrationScheduler name thr calc)
   = get_policy name thr calc).
Proof.
  unfold new_MigrationScheduler. split; intros E; rewrite E; simpl.
  - reflexivity.
  - destruct (get_policy name thr calc); reflexivity.
Qed.

Lemma migration_policy_resolution_witness :
  new_MigrationScheduler "no_such_policy" 3.0%float (example_calc false)
  = new_MigrationScheduler "balanced" 3.0%float (example_calc false) /\
  option_map ms_check_migrate_policy
    (new_MigrationScheduler "prefill_relaxed" 3.0%float (example_calc true))
  = get_policy "prefill_relaxed" 3.0%float (example_calc true).
Proof.
  split.
  - apply (proj1 (migration_policy_resolution "no_such_policy" 3.0%float (example_calc false))).
    reflexivity.
  - apply (proj2 (migration_policy_resolution "prefill_relaxed" 3.0%float (example_calc true))).
    reflexivity.
Defined.

(** C6, as stated, fails: with [enable_prefill_migrate] false an unknown
    policy name is never looked up, and construction succeeds. *)
Lemma unknown_policy_accepted_when_prefill_disabled :
  new_MigrationScheduler "no_such_policy" 3.0%float (example_calc false) <> None.
Proof. vm_compute. discriminate. Qed.

(** C6 (amended): construction raises exactly when
    [enable_prefill_migrate] is true and the name is none of the three
    policies; when [enable_prefill_migrate] is false, every name is
    accepted and the scheduler gets the balanced policy (with the given
    threshold and calculator). *)
Theorem new_MigrationScheduler_error name thr calc :
  (new_MigrationScheduler name thr calc = None <->
   enable_prefill_migrate calc = true /\
   name ∉ ["balanced"; "prefill_constrained"; "prefill_relaxed"]%string) /\
  (enable_prefill_migrate calc = false ->
   exists ms, new_MigrationScheduler name thr calc = Some ms /\
     ms_check_migrate_policy ms = mkCheckMigratePolicy Balanced thr calc).
Proof.
  split.
  - unfold new_MigrationScheduler, get_policy.
    destruct (enable_prefill_migrate calc); simpl.
    + rewrite !not_elem_of_cons. split.
      * destruct (String.eqb_spec name "balanced"); [discriminate|].
        destruct (String.eqb_spec name "prefill_constrained"); [discriminate|].
        destruct (String.eqb_spec name "prefill_relaxed"); [discriminate|].
        intros _. repeat split; auto. apply not_elem_of_nil.
      * intros [_ (N1 & N2 & N3 & _)].
        destruct (String.eqb_spec name "balanced"); [contradiction|].
        destruct (String.eqb_spec name "prefill_constrained"); [contradiction|].
        destruct (String.eqb_spec name "prefill_relaxed"); [contradiction|].
        reflexivity.
    + split; [discriminate | intros [F _]; discriminate].
  - intros F. unfold new_MigrationScheduler. rewrite F. simpl.
    eexists. split; reflexivity.
Qed.

Lemma new_MigrationScheduler_error_witness :
  exists ms, new_MigrationScheduler "no_such_policy" 3.0%float (example_calc false) = Some ms /\
    ms_check_migrate_policy ms = mkCheckMigratePolicy Balanced 3.0%float (example_calc false).
Proof.
  apply (proj2 (new_MigrationScheduler_error "no_such_policy" 3.0%float (example_calc false))).
  reflexivity.
Defined.

(* ================================================================== *)
(** ** Dict operations *)

Lemma dict_set_keys_present (d : registry) k v :
  k ∈ d.*1 -> (dict_set d k v).*1 = d.*1.
Proof.
  induction d as [|[k' v'] t IH]; simpl; intros I.
  - apply elem_of_nil in I. contradiction.
  - destruct (String.eqb_spec k' k) as [->|N]; simpl; [reflexivity|].
    apply elem_of_cons in I as [->|I]; [contradiction|]. f_equal. exact (IH I).
Qed.

Lemma dict_set_absent (d : registry) k v :
  k ∉ d.*1 -> dict_set d k v = d ++ [(k, v)].
Proof.
  induction d as [|[k' v'] t IH]; simpl; intros I; [reflexivity|].
  apply not_elem_of_cons in I as [N I].
  destruct (String.eqb_spec k' k) as [->|_]; [contradiction|]. f_equal. exact (IH I).
Qed.

Lemma dict_get_set_eq (d : registry) k v : dict_get (dict_set d k v) k = Some v.
Proof.
  induction d as [|[k' v'] t IH]; simpl.
  - rewrite String.eqb_refl. reflexivity.
  - destruct (String.eqb_spec k' k); simpl.
    + rewrite String.eqb_refl. reflexivity.
    + destruct (String.eqb_spec k' k); [contradiction|exact IH].
Qed.

Lemma dict_get_set_ne (d : registry) k k' v :
  k <> k' -> dict_get (dict_set d k v) k' = dict_get d k'.
Proof.
  intros N. induction d as [|[k0 v0] t IH]; simpl.
  - destruct (String.eqb_spec k k'); [contradiction|reflexivity].
  - destruct (String.eqb_spec k0 k) as [->|]; simpl.
    + destruct (String.eqb_spec k k'); [contradiction|reflexivity].
    + destruct (String.eqb_spec k0 k'); [reflexivity|exact IH].
Qed.

Lemma dict_del_app_absent (d : registry) k v :
  k ∉ d.*1 -> dict_del (d ++ [(k, v)]) k = d.
Proof.
  induction d as [|[k' v'] t IH]; simpl; intros I.
  - rewrite String.eqb_refl. reflexivity.
  - apply not_elem_of_cons in I as [N I].
    destruct (String.eqb_spec k' k) as [->|_]; [contradiction|]. f_equal. exact (IH I).
Qed.

Lemma dict_del_keys (d : registry) k :
  NoDup d.*1 ->
  NoDup (dict_del d k).*1 /\
  list_to_set (dict_del d k).*1 = (list_to_set d.*1 ∖ {[k]} : gset string).
Proof.
  induction d as [|[k' v'] t IH]; intros ND; cbn [dict_del].
  - split; [constructor|]. simpl. set_solver.
  - rewrite fmap_cons in ND. apply NoDup_cons in ND as [N ND].
    destruct (IH ND) as [ND' S'].
    assert (N' : k' ∉ (list_to_set t.*1 : gset string))
      by (rewrite elem_of_list_to_set; exact N).
    rewrite fmap_cons, list_to_set_cons.
    destruct (String.eqb_spec k' k) as [->|Ne].
    + split; [exact ND|]. set_solver.
    + rewrite fmap_cons, list_to_set_cons. split.
      * apply NoDup_cons. split; [|exact ND'].
        intros I. apply N.
        assert (I' : k' ∈ (list_to_set (dict_del t k).*1 : gset string))
          by (apply elem_of_list_to_set; exact I).
        rewrite S' in I'. apply elem_of_difference in I' as [I' _].
        apply elem_of_list_to_set in I'. exact I'.
      * rewrite S'. set_solver.
Qed.

(* ================================================================== *)
(** ** [update_instance_infos] *)

Lemma refreshed_id calc i : instance_id (refreshed calc i) = instance_id i.
Proof. reflexivity. Qed.

Lemma refreshed_idem calc i :
  loads_from_counters calc -> refreshed calc (refreshed calc i) = refreshed calc i.
Proof.
  intros F. unfold refreshed.
  rewrite !(proj2 (F _ _ _)), !(proj1 (F _ _ _)).
  destruct i; reflexivity.
Qed.

(** One iteration of the loop on an existing object. *)
Lemma update_loop_cons calc l rest d h :
  loads_from_counters calc -> l < length h ->
  update_instance_infos_loop calc (l :: rest) d h =
  if dict_contains d (instance_id (h !!! l))
  then update_instance_infos_loop calc rest (dict_set d (instance_id (h !!! l)) l)
         (<[l := refreshed calc (h !!! l)]> h)
  else update_instance_infos_loop calc rest d h.
Proof.
  intros F L. simpl. unfold bind, get, put.
  destruct (dict_contains d (instance_id (h !!! l))); [|reflexivity].
  rewrite !list_lookup_total_insert_eq by (rewrite ?length_insert; exact L).
  rewrite list_insert_insert_eq.
  rewrite (proj1 (F _ _ _)). reflexivity.
Qed.

Lemma last_with_id_cons h l rest k :
  last_with_id h (l :: rest) k =
  match last_with_id h rest k with
  | Some y => Some y
  | None => if decide (instance_id (h !!! l) = k) then Some l else None
  end.
Proof.
  unfold last_with_id. rewrite filter_cons.
  case_decide; [rewrite last_cons|]; destruct (last _); reflexivity.
Qed.

Lemma last_with_id_ext h h' batch k :
  (forall x, instance_id (h' !!! x) = instance_id (h !!! x)) ->
  last_with_id h' batch k = last_with_id h batch k.
Proof.
  intros E. unfold last_with_id. f_equal. apply list_filter_iff. intros x. rewrite E. reflexivity.
Qed.

Lemma last_with_id_None h batch k x :
  last_with_id h batch k = None -> x ∈ batch -> instance_id (h !!! x) <> k.
Proof.
  unfold last_with_id. rewrite last_None. intros E I P.
  exact (filter_nil_not_elem_of _ _ x E P I).
Qed.

Lemma update_loop_spec calc batch :
  loads_from_counters calc ->
  forall d h, (forall l, l ∈ batch -> l < length h) ->
  exists d' h',
    update_instance_infos_loop calc batch d h = Some (d', h') /\
    length h' = length h /\
    (forall l, l ∉ batch -> h' !!! l = h !!! l) /\
    (forall l, instance_id (h' !!! l) = instance_id (h !!! l)) /\
    d'.*1 = d.*1 /\
    forall k, k ∈ d.*1 ->
      match last_with_id h batch k with
      | Some l => dict_get d' k = Some l /\ h' !!! l = refreshed calc (h !!! l)
      | None => dict_get d' k = dict_get d k
      end.
Proof.
  intros F. induction batch as [|l rest IH]; intros d h V.
  - exists d, h. repeat split; auto.
  - assert (L : l < length h) by (apply V; left).
    assert (V' : forall x, x ∈ rest -> x < length h) by (intros x I; apply V; right; exact I).
    rewrite update_loop_cons by assumption.
    destruct (dict_contains d (instance_id (h !!! l))) eqn:C.
    + unfold dict_contains in C. apply bool_decide_eq_true in C.
      set (h1 := <[l := refreshed calc (h !!! l)]> h).
      assert (I1 : forall x, instance_id (h1 !!! x) = instance_id (h !!! x)).
      { intros x. unfold h1. rewrite list_lookup_total_insert.
        case_decide as D; [destruct D as [-> _]; apply refreshed_id | reflexivity]. }
      assert (H1l : h1 !!! l = refreshed calc (h !!! l))
        by (apply list_lookup_total_insert_eq; exact L).
      assert (H1x : forall x, x <> l -> h1 !!! x = h !!! x)
        by (intros x N; apply list_lookup_total_insert_ne; congruence).
      destruct (IH (dict_set d (instance_id (h !!! l)) l) h1)
        as (d' & h' & E & Len & Out & Ids & Keys & Get).
      { intros x I. unfold h1. rewrite length_insert. apply V'. exact I. }
      exists d', h'. split; [exact E|]. split.
      { rewrite Len. unfold h1. apply length_insert. }
      split.
      { intros x N. apply not_elem_of_cons in N as [N1 N2].
        rewrite (Out x N2). apply H1x. exact N1. }
      split.
      { intros x. rewrite Ids. apply I1. }
      split.
      { rewrite Keys. apply dict_set_keys_present. exact C. }
      intros k K.
      assert (K1 : k ∈ (dict_set d (instance_id (h !!! l)) l).*1)
        by (rewrite dict_set_keys_present by exact C; exact K).
      specialize (Get k K1). rewrite (last_with_id_ext h h1 rest k I1) in Get.
      rewrite last_with_id_cons.
      destruct (last_with_id h rest k) as [y|] eqn:Ly.
      * destruct Get as [G1 G2]. split; [exact G1|]. rewrite G2.
        destruct (decide (y = l)) as [->|N].
        -- rewrite H1l. apply refreshed_idem. exact F.
        -- rewrite (H1x y N). reflexivity.
      * case_decide as D.
        -- rewrite Get, <- D. split; [apply dict_get_set_eq|].
           assert (NI : l ∉ rest).
           { intros I. exact (last_with_id_None h rest k l Ly I D). }
           rewrite (Out l NI).
           exact H1l.
        -- rewrite Get. apply dict_get_set_ne. exact D.
    + unfold dict_contains in C. apply bool_decide_eq_false in C.
      destruct (IH d h V') as (d' & h' & E & Len & Out & Ids & Keys & Get).
      exists d', h'. split; [exact E|]. split; [exact Len|]. split.
      { intros x N. apply not_elem_of_cons in N as [_ N]. exact (Out x N). }
      split; [exact Ids|]. split; [exact Keys|].
      intros k K. specialize (Get k K). rewrite last_with_id_cons.
      destruct (last_with_id h rest k); [exact Get|].
      case_decide as D; [rewrite D in C; contradiction | exact Get].
Qed.

(** C4, as stated, fails: when a batch carries two heartbeats of the same
    registered instance, the first one (location 3) is not what the
    registry holds afterwards; the last one (location 4) is. *)
Lemma update_instance_infos_duplicate_id :
  instance_id (dup_heap !!! 3) = "cold" /\ instance_id (dup_heap !!! 4) = "cold" /\
  option_map (fun r => dict_get (gs_instance_info r.1.2) "cold")
    (GlobalScheduler_update_instance_infos (example_gs Balanced [("cold", 1)]) [3; 4] dup_heap)
  = Some (Some 4).
Proof. split; [|split]; vm_compute; reflexivity. Qed.

(** C4 (amended): [update_instance_infos] never raises and keeps the
    registry's keys (so unknown ids add and remove nothing).  For every
    registered id [k], if the batch carries an info with id [k], the entry
    for [k] is the LAST such info of the batch, with both loads set to the
    calculator's values on it (for a load formula that reads the counters
    only); otherwise the entry is unchanged. *)
Theorem update_instance_infos_last_wins gs batch h :
  loads_from_counters (gs_instance_load_calculator gs) ->
  (forall l, l ∈ batch -> l < length h) ->
  exists gs' h',
    GlobalScheduler_update_instance_infos gs batch h = Some ((tt, gs'), h') /\
    (gs_instance_info gs').*1 = (gs_instance_info gs).*1 /\
    gs_instance_id_set gs' = gs_instance_id_set gs /\
    gs_num_instance gs' = gs_num_instance gs /\
    forall k, k ∈ (gs_instance_info gs).*1 ->
      match last_with_id h batch k with
      | Some l =>
          dict_get (gs_instance_info gs') k = Some l /\
          h' !!! l = refreshed (gs_instance_load_calculator gs) (h !!! l)
      | None => dict_get (gs_instance_info gs') k = dict_get (gs_instance_info gs) k
      end.
Proof.
  intros F V.
  destruct (update_loop_spec _ batch F (gs_instance_info gs) h V)
    as (d' & h' & E & _ & _ & _ & Keys & Get).
  exists (gs_with_info gs d'), h'. split.
  { unfold GlobalScheduler_update_instance_infos, bind. rewrite E. reflexivity. }
  split; [exact Keys|]. split; [reflexivity|]. split; [reflexivity|].
  exact Get.
Qed.

Lemma update_instance_infos_last_wins_witness :
  loads_from_counters (gs_instance_load_calculator (example_gs Balanced [("cold", 1)])) /\
  (forall l, l ∈ [3; 4] -> l < length dup_heap) /\
  exists gs' h',
    GlobalScheduler_update_instance_infos (example_gs Balanced [("cold", 1)]) [3; 4] dup_heap
    = Some ((tt, gs'), h') /\
    dict_get (gs_instance_info gs') "cold" = Some 4 /\
    h' !!! 4 = refreshed (example_calc true) (dup_heap !!! 4).
Proof.
  assert (F : loads_from_counters (gs_instance_load_calculator (example_gs Balanced [("cold", 1)])))
    by (intros i x a; split; reflexivity).
  assert (V : forall l, l ∈ [3; 4] -> l < length dup_heap).
  { intros l I. apply elem_of_cons in I as [->|I]; [vm_compute; lia|].
    apply elem_of_cons in I as [->|I]; [vm_compute; lia|]. apply elem_of_nil in I. contradiction. }
  split; [exact F|]. split; [exact V|].
  destruct (update_instance_infos_last_wins (example_gs Balanced [("cold", 1)]) [3; 4] dup_heap F V)
    as (gs' & h' & E & _ & _ & _ & G).
  exists gs', h'. split; [exact E|].
  specialize (G "cold" ltac:(left)).
  exact G.
Defined.

(* ================================================================== *)
(** ** The registry invariant *)

Lemma gs_inv_spec gs :
  gs_inv gs = true <->
  NoDup (gs_instance_info gs).*1 /\
  gs_instance_id_set gs = list_to_set (gs_instance_info gs).*1 /\
  gs_num_instance gs = size (gs_instance_id_set gs) /\
  ds_instance_id_set (gs_dispatch_scheduler gs) = gs_instance_id_set gs /\
  ms_instance_id_set (gs_migrate_scheduler gs) = gs_instance_id_set gs /\
  ss_instance_id_set (gs_scale_scheduler gs) = gs_instance_id_set gs.
Proof.
  unfold gs_inv. rewrite !andb_true_iff, !bool_decide_eq_true, Nat.eqb_eq. tauto.
Qed.

Lemma gs_inv_with_info gs d :
  d.*1 = (gs_instance_info gs).*1 -> gs_inv (gs_with_info gs d) = gs_inv gs.
Proof. intros E. unfold gs_inv, gs_with_info. cbn. rewrite E. reflexivity. Qed.

Lemma gs_inv_with_subs gs ds ms ss :
  ds_instance_id_set ds = ds_instance_id_set (gs_dispatch_scheduler gs) ->
  ms_instance_id_set ms = ms_instance_id_set (gs_migrate_scheduler gs) ->
  ss_instance_id_set ss = ss_instance_id_set (gs_scale_scheduler gs) ->
  gs_inv (gs_with_subs gs ds ms ss) = gs_inv gs.
Proof.
  intros E1 E2 E3. unfold gs_inv, gs_with_subs. cbn. rewrite E1, E2, E3. reflexivity.
Qed.

Lemma insert_lookup_id (h : heap) l x :
  instance_id x = instance_id (h !!! l) -> instance_id (<[l := x]> h !!! l) = instance_id (h !!! l).
Proof.
  intros E. rewrite list_lookup_total_insert.
  case_decide as D; [exact E | reflexivity].
Qed.

Lemma update_loop_keys calc batch :
  forall d h d' h', update_instance_infos_loop calc batch d h = Some (d', h') -> d'.*1 = d.*1.
Proof.
  induction batch as [|l rest IH]; intros d h d' h' E.
  - injection E as <- <-. reflexivity.
  - simpl in E. unfold bind, get, put in E.
    destruct (dict_contains d (instance_id (h !!! l))) eqn:C.
    + match type of E with
      | context [dict_set d ?k l] => assert (Ek : k = instance_id (h !!! l))
      end.
      { rewrite insert_lookup_id by reflexivity.
        rewrite insert_lookup_id by reflexivity. reflexivity. }
      rewrite Ek in E. rewrite (IH _ _ _ _ E).
      apply dict_set_keys_present. unfold dict_contains in C.
      apply bool_decide_eq_true in C. exact C.
    + exact (IH _ _ _ _ E).
Qed.

Lemma update_inv gs batch h u gs' h' :
  gs_inv gs = true ->
  GlobalScheduler_update_instance_infos gs batch h = Some ((u, gs'), h') -> gs_inv gs' = true.
Proof.
  intros I E. unfold GlobalScheduler_update_instance_infos, bind in E.
  destruct (update_instance_infos_loop _ _ _ h) as [[d' h1]|] eqn:L; [|discriminate].
  injection E as _ <- _. rewrite gs_inv_with_info; [exact I|].
  exact (update_loop_keys _ _ _ _ _ _ L).
Qed.

Lemma dispatch_inv gs h id gs' h' :
  gs_inv gs = true -> GlobalScheduler_dispatch gs h = Some ((id, gs'), h') -> gs_inv gs' = true.
Proof.
  intros I E. unfold GlobalScheduler_dispatch, bind in E.
  destruct (DispatchScheduler_dispatch _ h) as [[x h1]|]; [|discriminate].
  injection E as _ <- _. rewrite gs_inv_with_subs; auto.
Qed.

Lemma MigrationScheduler_check_migrate_ids ms h ps ms' h' :
  MigrationScheduler_check_migrate ms h = Some ((ps, ms'), h') ->
  ms_instance_id_set ms' = ms_instance_id_set ms.
Proof.
  unfold MigrationScheduler_check_migrate, MigrationScheduler_sort_instance_infos.
  destruct (ms_instance_info ms); [|discriminate].
  unfold bind at 1 2, read_heap, ret at 1.
  cbn [ms_with_sorted ms_check_migrate_policy ms_sorted_instance_infos default].
  unfold bind.
  match goal with |- context [policy_check_migrate ?p ?s ?h0] =>
    destruct (policy_check_migrate p s h0) as [[x h1]|] end; [|discriminate].
  intros E. injection E as _ <- _. reflexivity.
Qed.

Lemma check_migrate_inv gs h ps gs' h' :
  gs_inv gs = true -> GlobalScheduler_check_migrate gs h = Some ((ps, gs'), h') -> gs_inv gs' = true.
Proof.
  intros I E. unfold GlobalScheduler_check_migrate, bind in E.
  destruct (MigrationScheduler_check_migrate _ h) as [[[x ms'] h1]|] eqn:C; [|discriminate].
  injection E as _ <- _. simpl.
  rewrite gs_inv_with_subs; auto.
  rewrite (MigrationScheduler_check_migrate_ids _ _ _ _ _ C). reflexivity.
Qed.

Lemma check_scale_inv gs h r gs' h' :
  gs_inv gs = true -> GlobalScheduler_check_scale gs h = Some ((r, gs'), h') -> gs_inv gs' = true.
Proof.
  intros I E. unfold GlobalScheduler_check_scale, bind in E.
  destruct (ScaleScheduler_check_scale _ h) as [[x h1]|]; [|discriminate].
  injection E as _ <- _. rewrite gs_inv_with_subs; auto.
Qed.

(** [scale_up] of an id that is not registered: the new object goes at
    the end of the dict and the id joins every set. *)
Lemma add_fresh_inv gs id l :
  gs_inv gs = true -> id ∉ (gs_instance_info gs).*1 ->
  gs_inv (GlobalScheduler_add_instance
            (gs_with_info gs (dict_set (gs_instance_info gs) id l)) id) = true.
Proof.
  intros I N. apply gs_inv_spec in I as (ND & S & Num & D & Mi & Sc).
  rewrite dict_set_absent by exact N.
  apply gs_inv_spec. cbn. rewrite fmap_app. cbn.
  split; [|split; [|split; [reflexivity|]]].
  - apply NoDup_app. split; [exact ND|]. split; [|apply NoDup_singleton].
    intros x Ix Ex. apply list_elem_of_singleton in Ex. subst. contradiction.
  - rewrite list_to_set_app_L, S. cbn. set_solver.
  - rewrite D, Mi, Sc. repeat split.
Qed.

Lemma scale_up_loop_inv ids :
  forall gs h, gs_inv gs = true ->
  exists gs' h', scale_up_loop ids gs h = Some (gs', h') /\ gs_inv gs' = true /\ heap_ext h h'.
Proof.
  induction ids as [|id rest IH]; intros gs h I.
  - exists gs, h. split; [reflexivity|]. split; [exact I|]. apply heap_ext_refl.
  - simpl. destruct (dict_contains (gs_instance_info gs) id) eqn:C; [exact (IH gs h I)|].
    unfold dict_contains in C. apply bool_decide_eq_false in C.
    unfold get_empty_instance_info, alloc, bind, get, put.
    set (h1 := <[length h := set_instance_id ((h ++ [empty_instance_info]) !!! length h) id]>
                 (h ++ [empty_instance_info])).
    destruct (IH _ h1 (add_fresh_inv gs id (length h) I C)) as (gs' & h' & E & I' & X).
    exists gs', h'. split; [exact E|]. split; [exact I'|].
    eapply heap_ext_trans; [|exact X].
    unfold h1. rewrite lookup_total_snoc, insert_snoc. apply heap_ext_snoc.
Qed.

(** [scale_down] of a registered id: [del] then [_remove_instance], which
    cannot raise since every set holds the id. *)
Lemma remove_registered_inv gs id :
  gs_inv gs = true -> id ∈ (gs_instance_info gs).*1 ->
  exists gs2,
    GlobalScheduler_remove_instance
      (gs_with_info gs (dict_del (gs_instance_info gs) id)) id = Some gs2 /\
    gs_inv gs2 = true /\
    gs_instance_info gs2 = dict_del (gs_instance_info gs) id /\
    gs_instance_id_set gs2 = gs_instance_id_set gs ∖ {[id]}.
Proof.
  intros I K. pose proof I as I0.
  apply gs_inv_spec in I as (ND & S & Num & D & Mi & Sc).
  assert (Ks : id ∈ gs_instance_id_set gs) by (rewrite S; apply elem_of_list_to_set; exact K).
  unfold GlobalScheduler_remove_instance. cbn.
  rewrite bool_decide_eq_true_2 by exact Ks.
  unfold DispatchScheduler_remove_instance, MigrationScheduler_remove_instance,
    ScaleScheduler_remove_instance. cbn.
  rewrite D, Mi, Sc, !bool_decide_eq_true_2 by exact Ks.
  eexists. split; [reflexivity|].
  destruct (dict_del_keys (gs_instance_info gs) id ND) as [ND' S'].
  split; [|split; reflexivity].
  apply gs_inv_spec. cbn. rewrite ?D, ?Mi, ?Sc, S'.
  split; [exact ND'|]. rewrite S. repeat split.
Qed.

Lemma scale_down_loop_inv ids :
  forall gs h, gs_inv gs = true ->
  exists gs', scale_down_loop ids gs h = Some (gs', h) /\ gs_inv gs' = true.
Proof.
  induction ids as [|id rest IH]; intros gs h I.
  - exists gs. split; [reflexivity|exact I].
  - simpl. destruct (dict_contains (gs_instance_info gs) id) eqn:C; [|exact (IH gs h I)].
    unfold dict_contains in C. apply bool_decide_eq_true in C.
    destruct (remove_registered_inv gs id I C) as (gs2 & E & I2 & _).
    unfold bind, lift_option. rewrite E. exact (IH gs2 h I2).
Qed.

Lemma new_DispatchScheduler_ids p c ds :
  new_DispatchScheduler p c = Some ds -> ds_instance_id_set ds = ∅.
Proof. unfold new_DispatchScheduler. case_match; intros E; [injection E as <-|]; easy. Qed.

Lemma new_MigrationScheduler_ids p thr c ms :
  new_MigrationScheduler p thr c = Some ms -> ms_instance_id_set ms = ∅.
Proof. unfold new_MigrationScheduler. case_match; intros E; [injection E as <-|]; easy. Qed.

Lemma new_ScaleScheduler_ids up down p c ss :
  new_ScaleScheduler up down p c = Some ss -> ss_instance_id_set ss = ∅.
Proof. unfold new_ScaleScheduler. case_match; intros E; [injection E as <-|]; easy. Qed.

Lemma new_GlobalScheduler_inv formula cfg gs :
  new_GlobalScheduler formula cfg = Some gs -> gs_inv gs = true.
Proof.
  unfold new_GlobalScheduler.
  destruct (new_DispatchScheduler _ _) as [ds|] eqn:E1; [|discriminate].
  destruct (new_MigrationScheduler _ _ _) as [ms|] eqn:E2; [|discriminate].
  destruct (new_ScaleScheduler _ _ _ _) as [ss|] eqn:E3; [|discriminate].
  intros E. injection E as <-. apply gs_inv_spec. cbn.
  rewrite (new_DispatchScheduler_ids _ _ _ E1), (new_MigrationScheduler_ids _ _ _ _ E2),
    (new_ScaleScheduler_ids _ _ _ _ _ E3).
  split; [constructor|]. repeat split.
Qed.

Lemma reachable_inv gs : reachable gs -> gs_inv gs = true.
Proof.
  induction 1 as [formula cfg gs E|gs batch h u gs' h' _ IH E|gs h id gs' h' _ IH E
                 |gs h ps gs' h' _ IH E|gs h r gs' h' _ IH E|gs ids h u gs' h' _ IH E
                 |gs ids h u gs' h' _ IH E].
  - exact (new_GlobalScheduler_inv _ _ _ E).
  - exact (update_inv _ _ _ _ _ _ IH E).
  - exact (dispatch_inv _ _ _ _ _ IH E).
  - exact (check_migrate_inv _ _ _ _ _ IH E).
  - exact (check_scale_inv _ _ _ _ _ IH E).
  - destruct (scale_up_loop_inv ids gs h IH) as (g & h1 & L & I & _).
    unfold GlobalScheduler_scale_up, bind in E. rewrite L in E.
    injection E as _ <- _. exact I.
  - destruct (scale_down_loop_inv ids gs h IH) as (g & L & I).
    unfold GlobalScheduler_scale_down, bind in E. rewrite L in E.
    injection E as _ <- _. exact I.
Qed.

Lemma example_gs_info cls d : gs_instance_info (example_gs cls d) = d.
Proof. reflexivity. Qed.

(** C5: in every state a global scheduler can reach, [num_instance] is
    the size of [instance_id_set], which is the size of [instance_info],
    and [instance_id_set] is the key set of [instance_info]. *)
Theorem registry_counts_consistent gs :
  reachable gs ->
  gs_num_instance gs = size (gs_instance_id_set gs) /\
  size (gs_instance_id_set gs) = length (gs_instance_info gs) /\
  gs_instance_id_set gs = list_to_set (gs_instance_info gs).*1.
Proof.
  intros R. apply reachable_inv, gs_inv_spec in R as (ND & S & Num & _).
  split; [exact Num|]. split; [|exact S].
  rewrite S, size_list_to_set by exact ND. apply length_fmap.
Qed.

Lemma registry_counts_consistent_witness :
  exists gs0 gs1 h1,
    new_GlobalScheduler example_formula (example_config "balanced" true) = Some gs0 /\
    GlobalScheduler_scale_up gs0 ["a"; "b"] [] = Some ((tt, gs1), h1) /\
    gs_num_instance gs1 = size (gs_instance_id_set gs1) /\
    size (gs_instance_id_set gs1) = length (gs_instance_info gs1) /\
    gs_instance_id_set gs1 = list_to_set (gs_instance_info gs1).*1.
Proof.
  destruct (new_GlobalScheduler example_formula (example_config "balanced" true))
    as [gs0|] eqn:E0; [|vm_compute in E0; discriminate E0].
  destruct (GlobalScheduler_scale_up gs0 ["a"; "b"] []) as [[[u gs1] h1]|] eqn:E1.
  - exists gs0, gs1, h1. destruct u. split; [reflexivity|]. split; [exact E1|].
    apply registry_counts_consistent.
    apply (reach_scale_up gs0 ["a"; "b"] [] tt gs1 h1); [|exact E1].
    exact (reach_init example_formula (example_config "balanced" true) gs0 E0).
  - vm_compute in E0. injection E0 as <-. vm_compute in E1. discriminate E1.
Defined.

(* ================================================================== *)
(** ** [scale_up] followed by [scale_down] *)

(** C7, as stated, fails: [scale_up] of an id already registered does
    nothing, and the [scale_down] that follows removes the instance. *)
Lemma scale_up_down_registered_id :
  gs_inv (example_gs Balanced example_registry) = true /\
  match GlobalScheduler_scale_up (example_gs Balanced example_registry) ["cold"] example_heap with
  | Some ((_, gs1), h1) =>
      option_map (fun r => gs_instance_info r.1.2) (GlobalScheduler_scale_down gs1 ["cold"] h1)
  | None => None
  end = Some [("hot", 0); ("new", 2)].
Proof. split; vm_compute; reflexivity. Qed.

(** C7 (amended): from a state satisfying the registry invariant, for an
    id that is not registered, [scale_up([id])] then [scale_down([id])]
    both return and restore [instance_info], [instance_id_set] and
    [num_instance]; the heap only gains the (now unreferenced) object
    [scale_up] created. For an id that is registered, [scale_up([id])]
    changes nothing, and [scale_down([id])] then removes the instance:
    its entry, its id and one from [num_instance]. *)
Theorem scale_up_down_restores gs id h :
  gs_inv gs = true ->
  (id ∉ (gs_instance_info gs).*1 ->
   exists gs1 h1 gs2,
     GlobalScheduler_scale_up gs [id] h = Some ((tt, gs1), h1) /\
     GlobalScheduler_scale_down gs1 [id] h1 = Some ((tt, gs2), h1) /\
     gs_instance_info gs2 = gs_instance_info gs /\
     gs_instance_id_set gs2 = gs_instance_id_set gs /\
     gs_num_instance gs2 = gs_num_instance gs /\
     heap_ext h h1) /\
  (id ∈ (gs_instance_info gs).*1 ->
   GlobalScheduler_scale_up gs [id] h = Some ((tt, gs), h) /\
   exists gs2,
     GlobalScheduler_scale_down gs [id] h = Some ((tt, gs2), h) /\
     gs_instance_info gs2 = dict_del (gs_instance_info gs) id /\
     (id ∉ (gs_instance_info gs2).*1) /\
     gs_instance_id_set gs2 = gs_instance_id_set gs ∖ {[id]} /\
     gs_num_instance gs2 = gs_num_instance gs - 1).
Proof.
  intros I. split.
  - intros N.
    set (gs1 := GlobalScheduler_add_instance
                  (gs_with_info gs (dict_set (gs_instance_info gs) id (length h))) id).
    set (h1 := h ++ [set_instance_id empty_instance_info id]).
    assert (I1 : gs_inv gs1 = true) by (apply add_fresh_inv; assumption).
    assert (K1 : id ∈ (gs_instance_info gs1).*1).
    { unfold gs1. cbn. rewrite dict_set_absent by exact N. rewrite fmap_app.
      apply elem_of_app. right. left. }
    destruct (remove_registered_inv gs1 id I1 K1) as (gs2 & E & I2 & Info & Ids).
    exists gs1, h1, gs2. split.
    { unfold GlobalScheduler_scale_up. cbn [scale_up_loop].
      unfold dict_contains. rewrite bool_decide_eq_false_2 by exact N.
      unfold get_empty_instance_info, alloc, bind, get, put, ret. cbn [scale_up_loop].
      rewrite lookup_total_snoc, insert_snoc. reflexivity. }
    split.
    { unfold GlobalScheduler_scale_down. cbn [scale_down_loop].
      unfold dict_contains. rewrite bool_decide_eq_true_2 by exact K1.
      unfold bind at 2, lift_option. rewrite E. reflexivity. }
    apply gs_inv_spec in I as (ND & S & Num & _).
    apply gs_inv_spec in I2 as (_ & _ & Num2 & _).
    assert (Ns : id ∉ gs_instance_id_set gs) by (rewrite S, elem_of_list_to_set; exact N).
    assert (Ids' : gs_instance_id_set gs2 = gs_instance_id_set gs).
    { rewrite Ids. unfold gs1. cbn. set_solver. }
    split.
    { rewrite Info. unfold gs1. cbn. rewrite dict_set_absent by exact N.
      apply dict_del_app_absent. exact N. }
    split; [exact Ids'|]. split.
    { rewrite Num2, Ids', Num. reflexivity. }
    apply heap_ext_snoc.
  - intros K. split.
    { unfold GlobalScheduler_scale_up. cbn [scale_up_loop].
      unfold dict_contains. rewrite bool_decide_eq_true_2 by exact K. reflexivity. }
    destruct (remove_registered_inv gs id I K) as (gs2 & E & I2 & Info & Ids).
    exists gs2. split.
    { unfold GlobalScheduler_scale_down. cbn [scale_down_loop].
      unfold dict_contains. rewrite bool_decide_eq_true_2 by exact K.
      unfold bind at 2, lift_option. rewrite E. reflexivity. }
    apply gs_inv_spec in I as (ND & S & Num & _).
    apply gs_inv_spec in I2 as (_ & _ & Num2 & _).
    destruct (dict_del_keys (gs_instance_info gs) id ND) as [_ Sd].
    split; [exact Info|]. split.
    { rewrite Info. intros Kd.
      assert (Kd' : id ∈ (list_to_set (dict_del (gs_instance_info gs) id).*1 : gset string))
        by (apply elem_of_list_to_set; exact Kd).
      rewrite Sd in Kd'. set_solver. }
    split; [exact Ids|].
    assert (Ks : id ∈ gs_instance_id_set gs) by (rewrite S; apply elem_of_list_to_set; exact K).
    rewrite Num2, Ids, Num, size_difference by set_solver.
    rewrite size_singleton. reflexivity.
Qed.

Lemma scale_up_down_restores_witness :
  gs_inv (example_gs Balanced example_registry) = true /\
  ("extra"%string ∉ (gs_instance_info (example_gs Balanced example_registry)).*1) /\
  ("cold"%string ∈ (gs_instance_info (example_gs Balanced example_registry)).*1) /\
  (exists gs1 h1 gs2,
    GlobalScheduler_scale_up (example_gs Balanced example_registry) ["extra"] example_heap
    = Some ((tt, gs1), h1) /\
    GlobalScheduler_scale_down gs1 ["extra"] h1 = Some ((tt, gs2), h1) /\
    gs_instance_info gs2 = example_registry) /\
  (exists gs2,
    GlobalScheduler_scale_down (example_gs Balanced example_registry) ["cold"] example_heap
    = Some ((tt, gs2), example_heap) /\
    gs_instance_info gs2 = [("hot", 0); ("new", 2)]).
Proof.
  assert (I : gs_inv (example_gs Balanced example_registry) = true) by (vm_compute; reflexivity).
  assert (N : "extra"%string ∉ (gs_instance_info (example_gs Balanced example_registry)).*1).
  { rewrite example_gs_info. unfold example_registry. rewrite !fmap_cons, fmap_nil.
    rewrite !not_elem_of_cons.
    split; [discriminate|]. split; [discriminate|]. split; [discriminate|].
    apply not_elem_of_nil. }
  assert (K : "cold"%string ∈ (gs_instance_info (example_gs Balanced example_registry)).*1).
  { rewrite example_gs_info. unfold example_registry. rewrite !fmap_cons. right. left. }
  split; [exact I|]. split; [exact N|]. split; [exact K|].
  destruct (scale_up_down_restores _ "extra" example_heap I) as [R _].
  destruct (scale_up_down_restores _ "cold" example_heap I) as [_ Rr].
  split.
  - destruct (R N) as (gs1 & h1 & gs2 & E1 & E2 & Info & _).
    exists gs1, h1, gs2. split; [exact E1|]. split; [exact E2|].
    rewrite Info. apply example_gs_info.
  - destruct (Rr K) as [_ (gs2 & E & Info & _)].
    exists gs2. split; [exact E|]. rewrite Info. reflexivity.
Defined.

(* ================================================================== *)
(** ** [_sort_instance_infos] *)

Lemma insort_sorted key x (ys : list loc) :
  Sorted (not_below key) ys -> Sorted (not_below key) (insort key x ys).
Proof.
  induction ys as [|y t IH]; intros S; simpl.
  - constructor; constructor.
  - destruct (PrimFloat.ltb (key x) (key y)) eqn:L.
    + constructor; [exact S|]. constructor. unfold not_below. apply ltb_asym. exact L.
    + inversion S as [|? ? S' Hd]; subst. constructor; [apply IH; exact S'|].
      destruct t as [|z t']; simpl; [constructor; exact L|].
      destruct (PrimFloat.ltb (key x) (key z)); constructor; [exact L|].
      inversion Hd; assumption.
Qed.

Lemma sorted_by_sorted key (xs : list loc) : Sorted (not_below key) (sorted_by key xs).
Proof.
  unfold sorted_by.
  assert (G : forall acc, Sorted (not_below key) acc ->
                Sorted (not_below key) (fold_left (fun acc x => insort key x acc) xs acc)).
  { induction xs as [|x t IH]; intros acc S; simpl; [exact S|].
    apply IH. apply insort_sorted. exact S. }
  apply G. constructor.
Qed.

(** X1: when no [instance_load_migrate] of the registry is NaN,
    [_sort_instance_infos] returns the registry's objects, each once, and
    in order: with [descending=False] no object's load is below the load
    of any object before it, with [descending=True] no object's load is
    above the load of any object before it; it changes no object. (With
    NaN loads Python's sort gives no such order.) *)
Theorem sort_instance_infos_sorted ms d descending h :
  ms_instance_info ms = Some d ->
  (forall l, l ∈ d.*2 -> Prim2SF (registry_key h l) <> S754_nan) ->
  exists s,
    MigrationScheduler_sort_instance_infos ms descending h
    = Some (ms_with_sorted ms (Some s), h) /\
    s ≡ₚ d.*2 /\
    (if descending
     then StronglySorted (fun a b => PrimFloat.ltb (registry_key h a) (registry_key h b) = false) s
     else StronglySorted (fun a b => PrimFloat.ltb (registry_key h b) (registry_key h a) = false) s).
Proof.
  intros E NN. unfold MigrationScheduler_sort_instance_infos. rewrite E.
  unfold bind, read_heap, ret. fold (registry_key h).
  set (P := fun l => Prim2SF (registry_key h l) <> S754_nan).
  assert (Pm : forall s, s ≡ₚ d.*2 -> Forall P s).
  { intros s Ps. apply Forall_forall. intros x Ix. apply NN. rewrite <- Ps. exact Ix. }
  assert (Pe : (if descending then rev (sorted_by (registry_key h) (rev (dict_values d)))
                else sorted_by (registry_key h) (dict_values d)) ≡ₚ d.*2).
  { destruct descending.
    - rewrite <- Permutation_rev, sorted_by_perm. symmetry. apply Permutation_rev.
    - apply sorted_by_perm. }
  eexists. split; [reflexivity|]. split; [exact Pe|].
  apply Pm in Pe. destruct descending.
  - apply (Sorted_StronglySorted_on _ P); [|exact Pe|].
    + intros x y z Px Py Pz Rxy Ryz. exact (ltb_false_trans _ _ _ Pz Py Px Ryz Rxy).
    + rewrite rev_alt. apply (Sorted_reverse (not_below (registry_key h))).
      apply sorted_by_sorted.
  - apply (Sorted_StronglySorted_on _ P); [|exact Pe|].
    + intros x y z Px Py Pz Rxy Ryz. exact (ltb_false_trans _ _ _ Px Py Pz Rxy Ryz).
    + apply sorted_by_sorted.
Qed.

Lemma sort_instance_infos_sorted_witness :
  exists s,
    MigrationScheduler_sort_instance_infos
      (gs_migrate_scheduler (example_gs Balanced example_registry)) true example_heap
    = Some (ms_with_sorted (gs_migrate_scheduler (example_gs Balanced example_registry)) (Some s),
            example_heap) /\
    s ≡ₚ example_registry.*2 /\
    StronglySorted (fun a b => PrimFloat.ltb (registry_key example_heap a)
                                 (registry_key example_heap b) = false) s.
Proof.
  assert (NN : forall l, l ∈ example_registry.*2 -> Prim2SF (registry_key example_heap l) <> S754_nan).
  { intros l I. unfold example_registry in I. rewrite !fmap_cons, fmap_nil in I.
    repeat (apply elem_of_cons in I as [->|I]; [vm_compute; discriminate|]).
    apply elem_of_nil in I. contradiction. }
  destruct (sort_instance_infos_sorted (gs_migrate_scheduler (example_gs Balanced example_registry))
              example_registry true example_heap eq_refl NN) as [s [E [P S]]].
  exists s. split; [exact E|]. split; [exact P|exact S].
Defined.

(* ================================================================== *)
(** ** [MigrationScheduler] on its own *)

(** X2: a freshly built [MigrationScheduler] raises on [check_migrate]
    (its [instance_info] is still [None]) until [update_instance_infos]
    is called; after any [update_instance_infos] it never raises. *)
Theorem migration_scheduler_needs_update name thr calc ms :
  new_MigrationScheduler name thr calc = Some ms ->
  (forall h, MigrationScheduler_check_migrate ms h = None) /\
  (forall d h, exists out ms' h',
     MigrationScheduler_check_migrate (MigrationScheduler_update_instance_infos ms d) h
     = Some ((out, ms'), h')).
Proof.
  unfold new_MigrationScheduler.
  destruct (if negb (enable_prefill_migrate calc) then _ else _) as [p|]; [|discriminate].
  intros E. injection E as <-. split.
  - intros h. reflexivity.
  - intros d h. unfold MigrationScheduler_check_migrate, MigrationScheduler_sort_instance_infos.
    cbn [MigrationScheduler_update_instance_infos ms_with_instance_info ms_instance_info].
    unfold bind at 1 2, read_heap, ret at 1.
    cbn [ms_with_sorted ms_check_migrate_policy ms_sorted_instance_infos default].
    unfold bind.
    match goal with |- context [policy_check_migrate ?q ?s h] =>
      destruct (policy_check_migrate_ext q s h) as (out & h' & E & _); rewrite E end.
    do 3 eexists. reflexivity.
Qed.

Lemma migration_scheduler_needs_update_witness :
  exists ms, new_MigrationScheduler "prefill_relaxed" 3.0%float (example_calc true) = Some ms /\
    MigrationScheduler_check_migrate ms example_heap = None.
Proof.
  destruct (new_MigrationScheduler "prefill_relaxed" 3.0%float (example_calc true)) as [ms|] eqn:E;
    [|discriminate E].
  exists ms. split; [reflexivity|].
  exact (proj1 (migration_scheduler_needs_update _ _ _ ms E) example_heap).
Defined.


(* ================================================================== *)
(** ** How the three policies relate *)

Lemma sublist_fmap_loc {A B} (f : A -> B) (l1 l2 : list A) :
  l1 `sublist_of` l2 -> f <$> l1 `sublist_of` f <$> l2.
Proof. induction 1; simpl; constructor; assumption. Qed.

Lemma combine_fst_sublist {A B} (xs : list A) (ys : list B) : (combine xs ys).*1 `sublist_of` xs.
Proof.
  revert ys. induction xs as [|x xs IH]; intros [|y ys]; simpl.
  - constructor.
  - constructor.
  - apply sublist_nil_l.
  - apply sublist_skip. apply IH.
Qed.

Lemma combine_snd_sublist {A B} (xs : list A) (ys : list B) : (combine xs ys).*2 `sublist_of` ys.
Proof.
  revert ys. induction xs as [|x xs IH]; intros [|y ys]; simpl.
  - constructor.
  - apply sublist_nil_l.
  - constructor.
  - apply sublist_skip. apply IH.
Qed.

Lemma zip_ids_fst (h : heap) zs : (zip_ids h zs).*1 = (fun l => instance_id (h !!! l)) <$> zs.*2.
Proof. induction zs as [|[a b] zs IH]; simpl; [reflexivity|]. f_equal. exact IH. Qed.

Lemma zip_ids_snd (h : heap) zs : (zip_ids h zs).*2 = (fun l => instance_id (h !!! l)) <$> zs.*1.
Proof. induction zs as [|[a b] zs IH]; simpl; [reflexivity|]. f_equal. exact IH. Qed.

Lemma zip_ids_sublist h zs zs' : zs `sublist_of` zs' -> zip_ids h zs `sublist_of` zip_ids h zs'.
Proof. apply sublist_fmap_loc. Qed.

(** Every policy zips a sub-list of the sorted list (the destinations)
    with a sub-list of the reversed sorted list (the sources). *)
Lemma policy_pairs_zipped h p sorted :
  exists zs, policy_pairs h p sorted = zip_ids h zs /\
    zs.*1 `sublist_of` sorted /\ zs.*2 `sublist_of` rev sorted.
Proof.
  unfold policy_pairs, left_of, right_of.
  destruct (policy_class_of p); eexists; (split; [reflexivity|]); split.
  - etransitivity; [apply sublist_fmap_loc, sublist_filter|].
    etransitivity; [apply combine_fst_sublist|]. apply sublist_filter.
  - etransitivity; [apply sublist_fmap_loc, sublist_filter|].
    etransitivity; [apply combine_snd_sublist|]. apply sublist_filter.
  - etransitivity; [apply combine_fst_sublist|]. apply sublist_filter.
  - etransitivity; [apply combine_snd_sublist|]. apply sublist_filter.
  - etransitivity; [apply combine_fst_sublist|]. apply sublist_filter.
  - apply combine_snd_sublist.
Qed.

(** Under a well-formed registry the ids of its objects, in the order of
    [dict_values], are its keys. *)
Lemma ids_of_values (h : heap) (d : registry) :
  (forall k l, (k, l) ∈ d -> instance_id (h !!! l) = k) ->
  (fun l => instance_id (h !!! l)) <$> d.*2 = d.*1.
Proof.
  induction d as [|[k l] t IH]; intros E; simpl; [reflexivity|].
  f_equal.
  - apply E. left.
  - apply IH. intros k' l' I. apply E. right. exact I.
Qed.

(** X4: on the same sorted list and threshold, the pairs [Balanced] returns
    are a sub-sequence of the pairs [PrefillConstrained] returns: the
    balanced policy only drops zipped positions, it never adds or
    reorders one. *)
Theorem balanced_sublist_of_constrained thr calc sorted h :
  (forall l, l ∈ sorted -> l < length h) ->
  exists outB hB outC,
    Balanced_check_migrate (mkCheckMigratePolicy Balanced thr calc) sorted h = Some (outB, hB) /\
    PrefillConstrained_check_migrate (mkCheckMigratePolicy PrefillConstrained thr calc) sorted h
    = Some (outC, h) /\
    outB `sublist_of` outC.
Proof.
  intros V.
  set (L := filter (fun l => migrate_in_filter thr (h !!! l) = true) sorted).
  set (R := filter (fun l => migrate_out_filter thr (h !!! l) = true) (rev sorted)).
  assert (VP : valid_pairs h (combine L R)).
  { apply (valid_pairs_combine h L R sorted V).
    - intros l I. apply list_elem_of_filter in I. apply I.
    - intros l I. apply list_elem_of_filter in I. apply elem_of_rev_loc. apply I. }
  destruct (Balanced_loop_spec (mkCheckMigratePolicy Balanced thr calc) (combine L R) [] h VP)
    as [hB [E _]].
  exists ([] ++ zip_ids h (filter (fun lr => balanced_accept (mkCheckMigratePolicy Balanced thr calc)
                                   (h !!! lr.1) (h !!! lr.2) = true) (combine L R))), hB,
         (zip_ids h (combine L R)).
  split; [|split; [reflexivity|]].
  - unfold Balanced_check_migrate, bind, read_heap. exact E.
  - apply zip_ids_sublist. apply sublist_filter.
Qed.

Lemma balanced_sublist_of_constrained_witness :
  exists outB hB outC,
    Balanced_check_migrate (mkCheckMigratePolicy Balanced 3.0%float (example_calc true))
      [1; 2; 0] example_heap = Some (outB, hB) /\
    PrefillConstrained_check_migrate (mkCheckMigratePolicy PrefillConstrained 3.0%float (example_calc true))
      [1; 2; 0] example_heap = Some (outC, example_heap) /\
    outB `sublist_of` outC.
Proof.
  apply balanced_sublist_of_constrained.
  intros l I. repeat (apply elem_of_cons in I as [->|I]; [vm_compute; lia|]).
  apply elem_of_nil in I. contradiction.
Defined.

(* ================================================================== *)
(** ** What [GlobalScheduler.check_migrate] returns, counted *)

Lemma wf_values_ids_NoDup (h : heap) d :
  registry_wf h d = true ->
  NoDup ((fun l => instance_id (h !!! l)) <$> dict_values d).
Proof.
  intros W. apply registry_wf_spec in W as [N F].
  unfold dict_values. rewrite ids_of_values; [exact N|].
  intros k l I. apply (F k l I).
Qed.

Lemma sorted_registry_perm gs h : sorted_registry gs h ≡ₚ dict_values (gs_instance_info gs).
Proof. apply sorted_by_perm. Qed.

(** X5: under a well-formed registry no instance is the source of two
    pairs, and none is the destination of two pairs, whatever the
    policy. *)
Theorem check_migrate_endpoints_unique gs h out :
  registry_wf h (gs_instance_info gs) = true ->
  migrate_pairs gs h = Some out ->
  NoDup out.*1 /\ NoDup out.*2.
Proof.
  intros W E.
  rewrite check_migrate_pairs_spec in E by exact W. injection E as <-.
  set (f := fun l => instance_id (h !!! l)).
  assert (Nd : NoDup (f <$> sorted_registry gs h)).
  { rewrite (sorted_registry_perm gs h). exact (wf_values_ids_NoDup h _ W). }
  destruct (policy_pairs_zipped h (ms_check_migrate_policy (gs_migrate_scheduler gs))
              (sorted_registry gs h)) as [zs [-> [S1 S2]]].
  rewrite zip_ids_fst, zip_ids_snd. split.
  - eapply sublist_NoDup; [|apply sublist_fmap_loc, S2].
    rewrite <- (Permutation_rev (sorted_registry gs h)). exact Nd.
  - eapply sublist_NoDup; [exact Nd|]. apply sublist_fmap_loc, S1.
Qed.

Lemma check_migrate_endpoints_unique_witness :
  exists out, migrate_pairs (example_gs PrefillRelaxed example_registry) example_heap = Some out /\
  NoDup out.*1 /\ NoDup out.*2.
Proof.
  eexists. split; [vm_compute; reflexivity|].
  apply (check_migrate_endpoints_unique (example_gs PrefillRelaxed example_registry) example_heap);
    vm_compute; reflexivity.
Defined.

(** X6: the number of pairs, counted over the registry: with [n_in]
    instances that pass [migrate_in_filter] and [n_out] that pass
    [migrate_out_filter], [PrefillConstrained] returns [min n_in n_out]
    pairs, [PrefillRelaxed] exactly [n_in], and [Balanced] at most
    [min n_in n_out]. In particular nothing is returned when no
    instance can take a migration. *)
Theorem check_migrate_pair_count gs h out :
  registry_wf h (gs_instance_info gs) = true ->
  migrate_pairs gs h = Some out ->
  let p := ms_check_migrate_policy (gs_migrate_scheduler gs) in
  let thr := migrate_out_load_threshold p in
  let n_in := length (filter (fun l => migrate_in_filter thr (h !!! l) = true)
                        (dict_values (gs_instance_info gs))) in
  let n_out := length (filter (fun l => migrate_out_filter thr (h !!! l) = true)
                         (dict_values (gs_instance_info gs))) in
  match policy_class_of p with
  | Balanced => length out <= Nat.min n_in n_out
  | PrefillConstrained => length out = Nat.min n_in n_out
  | PrefillRelaxed => length out = n_in
  end.
Proof.
  intros W E p thr n_in n_out.
  rewrite check_migrate_pairs_spec in E by exact W. injection E as <-.
  fold p.
  assert (Pin : length (left_of h thr (sorted_registry gs h)) = n_in).
  { apply Permutation_length, filter_Permutation, sorted_registry_perm. }
  assert (Pout : length (right_of h thr (sorted_registry gs h)) = n_out).
  { apply Permutation_length, filter_Permutation.
    rewrite <- Permutation_rev. apply sorted_registry_perm. }
  assert (Ple : n_in <= length (rev (sorted_registry gs h))).
  { rewrite <- Pin. rewrite length_rev. apply length_filter. }
  unfold policy_pairs, zip_ids. fold thr.
  destruct (policy_class_of p); rewrite length_map.
  - etransitivity; [apply length_filter|]. rewrite length_combine. lia.
  - rewrite length_combine. lia.
  - rewrite length_combine. lia.
Qed.

Lemma check_migrate_pair_count_witness :
  exists out, migrate_pairs (example_gs PrefillConstrained example_registry) example_heap = Some out /\
  length out = 1.
Proof.
  eexists. split; [vm_compute; reflexivity|].
  pose proof (check_migrate_pair_count (example_gs PrefillConstrained example_registry) example_heap
                [("hot", "new")]) as C.
  vm_compute in C. apply C; vm_compute; reflexivity.
Defined.

(** X7: under [Balanced] and [PrefillConstrained] the source of every pair
    is a registered instance that passes [migrate_out_filter]; only
    [PrefillRelaxed] takes sources without that test. *)
Theorem check_migrate_source_filter gs h out s d :
  registry_wf h (gs_instance_info gs) = true ->
  migrate_pairs gs h = Some out -> (s, d) ∈ out ->
  policy_class_of (ms_check_migrate_policy (gs_migrate_scheduler gs)) <> PrefillRelaxed ->
  exists ri, dict_get (gs_instance_info gs) s = Some ri /\
    migrate_out_filter (migrate_out_load_threshold (ms_check_migrate_policy (gs_migrate_scheduler gs)))
      (h !!! ri) = true.
Proof.
  intros W E I Nr.
  destruct (check_migrate_pair_origin gs h s d W out E I) as [li [ri [Gs [_ [_ [Fo _]]]]]].
  exists ri. split; [exact Gs|]. apply Fo, Nr.
Qed.

Lemma check_migrate_source_filter_witness :
  exists ri, dict_get (gs_instance_info (example_gs Balanced example_registry)) "hot" = Some ri /\
    migrate_out_filter 3.0%float (example_heap !!! ri) = true.
Proof.
  apply (check_migrate_source_filter (example_gs Balanced example_registry) example_heap
           [("hot", "new")] "hot" "new").
  - vm_compute. reflexivity.
  - vm_compute. reflexivity.
  - left.
  - discriminate.
Defined.

(* ================================================================== *)
(** ** [scale_up] and [scale_down] on a list of ids *)

Lemma filter_ext_in {A} (P Q : A -> Prop) `{forall x, Decision (P x)} `{forall x, Decision (Q x)}
    (l : list A) :
  (forall x, x ∈ l -> (P x <-> Q x)) -> filter P l = filter Q l.
Proof.
  induction l as [|x l IH]; intros E; [reflexivity|].
  rewrite !filter_cons. rewrite IH by (intros y I; apply E; right; exact I).
  pose proof (E x ltac:(left)) as Ex.
  destruct (decide (P x)), (decide (Q x)); tauto.
Qed.

Lemma filter_all {A} (P : A -> Prop) `{forall x, Decision (P x)} (l : list A) :
  (forall x, x ∈ l -> P x) -> filter P l = l.
Proof.
  induction l as [|x l IH]; intros E; [reflexivity|].
  rewrite filter_cons, decide_True by (apply E; left).
  f_equal. apply IH. intros y I. apply E. right. exact I.
Qed.

(** With distinct keys, [del d[k]] removes every entry of [k]. *)
Lemma dict_del_filter (d : registry) k :
  NoDup d.*1 -> dict_del d k = filter (fun kv => kv.1 <> k) d.
Proof.
  induction d as [|[k' v'] t IH]; intros ND; cbn [dict_del]; [reflexivity|].
  rewrite fmap_cons in ND. apply NoDup_cons in ND as [N ND].
  rewrite filter_cons. simpl.
  destruct (String.eqb_spec k' k) as [->|Ne].
  - rewrite decide_False by (intros C; apply C; reflexivity).
    symmetry. apply filter_all. intros [k0 v0] I E. simpl in E. subst.
    apply N. apply (list_elem_of_fmap_2 fst _ _ I).
  - rewrite decide_True by exact Ne. f_equal. exact (IH ND).
Qed.

Lemma add_instance_info gs id :
  gs_instance_info (GlobalScheduler_add_instance gs id) = gs_instance_info gs.
Proof. reflexivity. Qed.

Lemma add_instance_ids gs id :
  gs_instance_id_set (GlobalScheduler_add_instance gs id) = {[id]} ∪ gs_instance_id_set gs.
Proof. reflexivity. Qed.

Lemma scale_up_loop_spec ids :
  forall gs h, gs_inv gs = true ->
  exists gs' h' new,
    scale_up_loop ids gs h = Some (gs', h') /\ gs_inv gs' = true /\ heap_ext h h' /\
    gs_instance_info gs' = gs_instance_info gs ++ new /\
    (forall k l, (k, l) ∈ new ->
       length h <= l < length h' /\ h' !!! l = set_instance_id empty_instance_info k) /\
    gs_instance_id_set gs' = gs_instance_id_set gs ∪ list_to_set ids.
Proof.
  induction ids as [|id rest IH]; intros gs h I.
  - exists gs, h, []. split; [reflexivity|]. split; [exact I|]. split; [apply heap_ext_refl|].
    split; [symmetry; apply app_nil_r|].
    split; [intros k l E; apply elem_of_nil in E; contradiction|]. simpl. set_solver.
  - pose proof I as I0. apply gs_inv_spec in I0 as (_ & Sg & _).
    simpl. destruct (dict_contains (gs_instance_info gs) id) eqn:C.
    + destruct (IH gs h I) as (gs' & h' & new & E & I' & X & Info & New & S).
      exists gs', h', new. do 5 (split; [assumption|]).
      unfold dict_contains in C. apply bool_decide_eq_true in C.
      assert (id ∈ gs_instance_id_set gs) by (rewrite Sg; apply elem_of_list_to_set; exact C).
      rewrite S, ?list_to_set_cons. set_solver.
    + unfold dict_contains in C. apply bool_decide_eq_false in C.
      unfold get_empty_instance_info, alloc, bind, get, put.
      rewrite lookup_total_snoc, insert_snoc.
      destruct (IH _ (h ++ [set_instance_id empty_instance_info id]) (add_fresh_inv gs id (length h) I C))
        as (gs' & h' & new & E & I' & X & Info & New & S).
      exists gs', h', ((id, length h) :: new).
      split; [exact E|]. split; [exact I'|].
      split; [eapply heap_ext_trans; [apply heap_ext_snoc|exact X]|].
      split.
      { rewrite Info, add_instance_info. cbn. rewrite dict_set_absent by exact C.
        rewrite <- app_assoc. reflexivity. }
      split.
      { intros k l Ikl. apply elem_of_cons in Ikl as [Eq|Ikl].
        - injection Eq as -> ->. pose proof (proj1 X) as XL.
          rewrite length_app in XL. simpl in XL. split; [lia|].
          rewrite (heap_ext_lookup_total _ _ (length h) X) by (rewrite length_app; simpl; lia).
          apply lookup_total_snoc.
        - destruct (New k l Ikl) as [[L1 L2] V]. rewrite length_app in L1. simpl in L1.
          split; [lia|exact V]. }
      rewrite S, add_instance_ids, ?list_to_set_cons. cbn. set_solver.
Qed.

Lemma scale_up_loop_registered ids gs h :
  (forall id, id ∈ ids -> id ∈ (gs_instance_info gs).*1) -> scale_up_loop ids gs h = Some (gs, h).
Proof.
  induction ids as [|id rest IH]; intros R; [reflexivity|]. simpl.
  unfold dict_contains. rewrite bool_decide_eq_true_2 by (apply R; left).
  apply IH. intros i I. apply R. right. exact I.
Qed.

Lemma scale_down_loop_spec ids :
  forall gs h, gs_inv gs = true ->
  exists gs', scale_down_loop ids gs h = Some (gs', h) /\ gs_inv gs' = true /\
    gs_instance_info gs' = filter (fun kv => kv.1 ∉ ids) (gs_instance_info gs) /\
    gs_instance_id_set gs' = gs_instance_id_set gs ∖ list_to_set ids.
Proof.
  induction ids as [|id rest IH]; intros gs h I.
  - exists gs. split; [reflexivity|]. split; [exact I|]. split.
    + symmetry. apply filter_all. intros x _. apply not_elem_of_nil.
    + simpl. set_solver.
  - pose proof I as I0. apply gs_inv_spec in I0 as (ND & Sg & _).
    simpl. destruct (dict_contains (gs_instance_info gs) id) eqn:C.
    + unfold dict_contains in C. apply bool_decide_eq_true in C.
      destruct (remove_registered_inv gs id I C) as (gs2 & E2 & I2 & Info2 & S2).
      destruct (IH gs2 h I2) as (gs' & E & I' & Info & S).
      exists gs'. unfold bind, lift_option. rewrite E2.
      split; [exact E|]. split; [exact I'|]. split.
      * rewrite Info, Info2, dict_del_filter by exact ND.
        rewrite list_filter_filter. apply list_filter_iff. intros [k v]. simpl.
        rewrite not_elem_of_cons. tauto.
      * rewrite S, S2, ?list_to_set_cons. set_solver.
    + unfold dict_contains in C. apply bool_decide_eq_false in C.
      destruct (IH gs h I) as (gs' & E & I' & Info & S).
      exists gs'. split; [exact E|]. split; [exact I'|]. split.
      * rewrite Info. apply filter_ext_in. intros [k v] Ikv. simpl.
        rewrite not_elem_of_cons.
        assert (Kk : k ∈ (gs_instance_info gs).*1) by exact (list_elem_of_fmap_2 fst _ _ Ikv).
        split; [|tauto]. intros Nk. split; [|exact Nk]. intros ->. contradiction.
      * assert (id ∉ gs_instance_id_set gs)
          by (rewrite Sg; intros Ki; apply elem_of_list_to_set in Ki; contradiction).
        rewrite S, ?list_to_set_cons. set_solver.
Qed.

Lemma scale_down_loop_unregistered ids gs h :
  (forall id, id ∈ ids -> id ∉ (gs_instance_info gs).*1) -> scale_down_loop ids gs h = Some (gs, h).
Proof.
  induction ids as [|id rest IH]; intros R; [reflexivity|]. simpl.
  unfold dict_contains. rewrite bool_decide_eq_false_2 by (apply R; left).
  apply IH. intros i I. apply R. right. exact I.
Qed.

(** X8: [scale_up] of a list of ids, from a consistent state: it never
    raises; it keeps every existing entry (and object) and appends one
    entry per id not yet registered, each pointing to a fresh empty
    InstanceInfo that carries its id; the id set becomes the old one
    together with all the given ids; the registry stays consistent. *)
Theorem scale_up_spec gs ids h :
  gs_inv gs = true ->
  exists gs' h' new,
    GlobalScheduler_scale_up gs ids h = Some ((tt, gs'), h') /\ gs_inv gs' = true /\
    heap_ext h h' /\
    gs_instance_info gs' = gs_instance_info gs ++ new /\
    (forall k l, (k, l) ∈ new ->
       length h <= l < length h' /\ h' !!! l = set_instance_id empty_instance_info k) /\
    gs_instance_id_set gs' = gs_instance_id_set gs ∪ list_to_set ids.
Proof.
  intros I. destruct (scale_up_loop_spec ids gs h I) as (gs' & h' & new & E & R).
  exists gs', h', new. unfold GlobalScheduler_scale_up, bind. rewrite E.
  split; [reflexivity|exact R].
Qed.

Lemma scale_up_spec_witness :
  exists gs' h' new,
    GlobalScheduler_scale_up (example_gs Balanced example_registry) ["extra"; "hot"] example_heap
    = Some ((tt, gs'), h') /\ gs_inv gs' = true /\
    heap_ext example_heap h' /\
    gs_instance_info gs' = example_registry ++ new /\
    (forall k l, (k, l) ∈ new ->
       length example_heap <= l < length h' /\ h' !!! l = set_instance_id empty_instance_info k) /\
    gs_instance_id_set gs' = gs_instance_id_set (example_gs Balanced example_registry)
                             ∪ list_to_set ["extra"; "hot"].
Proof.
  apply (scale_up_spec (example_gs Balanced example_registry) ["extra"; "hot"] example_heap).
  vm_compute. reflexivity.
Defined.

(** X9: [scale_up] is idempotent: from a consistent state, calling it a
    second time with the same ids changes neither the scheduler nor the
    heap. *)
Theorem scale_up_idempotent gs ids h gs1 h1 :
  gs_inv gs = true ->
  GlobalScheduler_scale_up gs ids h = Some ((tt, gs1), h1) ->
  GlobalScheduler_scale_up gs1 ids h1 = Some ((tt, gs1), h1).
Proof.
  intros I E1.
  destruct (scale_up_spec gs ids h I) as (gs' & h' & new & E & I' & _ & _ & _ & S).
  rewrite E in E1. injection E1 as <- <-.
  apply gs_inv_spec in I' as (_ & Sg' & _).
  unfold GlobalScheduler_scale_up, bind. rewrite scale_up_loop_registered; [reflexivity|].
  intros id Iid. apply (elem_of_list_to_set (C := gset string)). rewrite <- Sg', S.
  apply elem_of_union_r. apply elem_of_list_to_set. exact Iid.
Qed.

Lemma scale_up_idempotent_witness :
  exists gs1 h1,
    GlobalScheduler_scale_up (example_gs Balanced example_registry) ["extra"] example_heap
    = Some ((tt, gs1), h1) /\
    GlobalScheduler_scale_up gs1 ["extra"] h1 = Some ((tt, gs1), h1).
Proof.
  eexists _, _. split; [vm_compute; reflexivity|].
  apply (scale_up_idempotent (example_gs Balanced example_registry) ["extra"] example_heap).
  - vm_compute. reflexivity.
  - vm_compute. reflexivity.
Defined.

(** X10: [scale_down] of a list of ids, from a consistent state: it never
    raises, leaves the heap as it is, removes exactly the entries whose
    key is among the ids (ids not registered are skipped), removes the ids
    from the id set, and keeps the registry consistent. *)
Theorem scale_down_spec gs ids h :
  gs_inv gs = true ->
  exists gs',
    GlobalScheduler_scale_down gs ids h = Some ((tt, gs'), h) /\ gs_inv gs' = true /\
    gs_instance_info gs' = filter (fun kv => kv.1 ∉ ids) (gs_instance_info gs) /\
    gs_instance_id_set gs' = gs_instance_id_set gs ∖ list_to_set ids.
Proof.
  intros I. destruct (scale_down_loop_spec ids gs h I) as (gs' & E & R).
  exists gs'. unfold GlobalScheduler_scale_down, bind. rewrite E.
  split; [reflexivity|exact R].
Qed.

Lemma scale_down_spec_witness :
  exists gs',
    GlobalScheduler_scale_down (example_gs Balanced example_registry) ["cold"; "gone"] example_heap
    = Some ((tt, gs'), example_heap) /\ gs_inv gs' = true /\
    gs_instance_info gs' = filter (fun kv => kv.1 ∉ ["cold"; "gone"]) example_registry /\
    gs_instance_id_set gs' = gs_instance_id_set (example_gs Balanced example_registry)
                             ∖ list_to_set ["cold"; "gone"].
Proof.
  apply (scale_down_spec (example_gs Balanced example_registry) ["cold"; "gone"] example_heap).
  vm_compute. reflexivity.
Defined.

(** X11: [scale_down] is idempotent: from a consistent state, calling it a
    second time with the same ids changes nothing. *)
Theorem scale_down_idempotent gs ids h gs1 :
  gs_inv gs = true ->
  GlobalScheduler_scale_down gs ids h = Some ((tt, gs1), h) ->
  GlobalScheduler_scale_down gs1 ids h = Some ((tt, gs1), h).
Proof.
  intros I E1.
  destruct (scale_down_spec gs ids h I) as (gs' & E & _ & Info & _).
  rewrite E in E1. injection E1 as <-.
  unfold GlobalScheduler_scale_down, bind. rewrite scale_down_loop_unregistered; [reflexivity|].
  intros id Iid K. rewrite Info in K.
  apply list_elem_of_fmap in K as [[k v] [-> Kv]].
  apply list_elem_of_filter in Kv as [N _]. exact (N Iid).
Qed.

Lemma scale_down_idempotent_witness :
  exists gs1,
    GlobalScheduler_scale_down (example_gs Balanced example_registry) ["cold"] example_heap
    = Some ((tt, gs1), example_heap) /\
    GlobalScheduler_scale_down gs1 ["cold"] example_heap = Some ((tt, gs1), example_heap).
Proof.
  eexists. split; [vm_compute; reflexivity|].
  apply (scale_down_idempotent (example_gs Balanced example_registry) ["cold"] example_heap).
  - vm_compute. reflexivity.
  - vm_compute. reflexivity.
Defined.

(* ================================================================== *)
(** ** [update_instance_infos]: what it touches *)

Lemma update_loop_unregistered calc batch d h :
  (forall l, l ∈ batch -> instance_id (h !!! l) ∉ d.*1) ->
  update_instance_infos_loop calc batch d h = Some (d, h).
Proof.
  induction batch as [|l rest IH]; intros A; [reflexivity|].
  simpl. unfold bind, get, dict_contains.
  rewrite bool_decide_eq_false_2 by (apply A; left).
  apply IH. intros l' I. apply A. right. exact I.
Qed.

Lemma strip_set_dispatch i x : strip_loads (set_instance_load_dispatch_scale i x) = strip_loads i.
Proof. destruct i; reflexivity. Qed.

Lemma strip_set_migrate i x : strip_loads (set_instance_load_migrate i x) = strip_loads i.
Proof. destruct i; reflexivity. Qed.

Lemma strip_insert (h : heap) l x :
  strip_loads x = strip_loads (h !!! l) ->
  forall j, strip_loads (<[l := x]> h !!! j) = strip_loads (h !!! j).
Proof.
  intros E j. rewrite list_lookup_total_insert.
  case_decide as D; [destruct D as [-> _]; exact E | reflexivity].
Qed.

Lemma update_loop_strip calc batch :
  forall d h d' h', update_instance_infos_loop calc batch d h = Some (d', h') ->
  length h' = length h /\ forall l, strip_loads (h' !!! l) = strip_loads (h !!! l).
Proof.
  induction batch as [|l rest IH]; intros d h d' h' E.
  - injection E as <- <-. split; reflexivity.
  - simpl in E. unfold bind, get, put in E.
    destruct (dict_contains d (instance_id (h !!! l))); [|exact (IH _ _ _ _ E)].
    destruct (IH _ _ _ _ E) as [L S]. split.
    + rewrite L, !length_insert. reflexivity.
    + intros j. rewrite S.
      rewrite strip_insert by (rewrite strip_set_migrate; reflexivity).
      rewrite strip_insert by (rewrite strip_set_dispatch; reflexivity).
      reflexivity.
Qed.

(** X12: heartbeats of instances that are not registered (not scaled up
    yet, or already scaled down) are ignored: [update_instance_infos]
    then changes neither the registry nor any object. *)
Theorem update_instance_infos_unregistered gs batch h :
  (forall l, l ∈ batch -> instance_id (h !!! l) ∉ (gs_instance_info gs).*1) ->
  GlobalScheduler_update_instance_infos gs batch h = Some ((tt, gs), h).
Proof.
  intros A. unfold GlobalScheduler_update_instance_infos, bind.
  rewrite update_loop_unregistered by exact A.
  destruct gs. reflexivity.
Qed.

Lemma update_instance_infos_unregistered_witness :
  GlobalScheduler_update_instance_infos (example_gs Balanced example_registry) [3]
    (example_heap ++ [example_info "gone" 1 0 1.0%float])
  = Some ((tt, example_gs Balanced example_registry),
          example_heap ++ [example_info "gone" 1 0 1.0%float]).
Proof.
  apply update_instance_infos_unregistered.
  intros l I. apply list_elem_of_singleton in I. subst l.
  change (instance_id ((example_heap ++ [example_info "gone" 1 0 1.0%float]) !!! 3))
    with "gone"%string.
  rewrite example_gs_info. unfold example_registry. rewrite !fmap_cons, fmap_nil.
  rewrite !not_elem_of_cons.
  split; [discriminate|]. split; [discriminate|]. split; [discriminate|].
  apply not_elem_of_nil.
Defined.

(** X13: [update_instance_infos] writes nothing but the two derived loads:
    every object keeps all its other fields, no object is created, the
    registry keeps its keys, and the sub-schedulers, the id set and the
    count are left as they were. *)
Theorem update_instance_infos_only_loads gs batch h u gs' h' :
  GlobalScheduler_update_instance_infos gs batch h = Some ((u, gs'), h') ->
  length h' = length h /\
  (forall l, strip_loads (h' !!! l) = strip_loads (h !!! l)) /\
  (gs_instance_info gs').*1 = (gs_instance_info gs).*1 /\
  gs' = gs_with_info gs (gs_instance_info gs').
Proof.
  unfold GlobalScheduler_update_instance_infos, bind.
  destruct (update_instance_infos_loop _ _ _ h) as [[d' h1]|] eqn:L; [|discriminate].
  unfold ret. intros E. injection E as <- <- <-.
  destruct (update_loop_strip _ _ _ _ _ _ L) as [Len S].
  split; [exact Len|]. split; [exact S|].
  split; [exact (update_loop_keys _ _ _ _ _ _ L)|reflexivity].
Qed.

Lemma update_instance_infos_only_loads_witness :
  exists u gs' h',
    GlobalScheduler_update_instance_infos (example_gs Balanced example_registry) [3; 4] dup_heap
    = Some ((u, gs'), h') /\
    length h' = length dup_heap /\
    (forall l, strip_loads (h' !!! l) = strip_loads (dup_heap !!! l)) /\
    (gs_instance_info gs').*1 = example_registry.*1 /\
    gs' = gs_with_info (example_gs Balanced example_registry) (gs_instance_info gs').
Proof.
  eexists _, _, _. split; [vm_compute; reflexivity|].
  apply (update_instance_infos_only_loads (example_gs Balanced example_registry) [3; 4] dup_heap tt).
  vm_compute. reflexivity.
Defined.

(* ================================================================== *)
(** ** [check_migrate] on an empty registry *)

(** X14: with no registered instance (as right after construction),
    [GlobalScheduler.check_migrate] does not raise, unlike
    [MigrationScheduler.check_migrate] on its own: it hands the empty
    dict to the migration scheduler first and returns no pair, leaving
    the heap as it is. *)
Theorem check_migrate_empty_registry gs h :
  gs_instance_info gs = [] ->
  exists gs', GlobalScheduler_check_migrate gs h = Some (([], gs'), h).
Proof.
  intros E. unfold GlobalScheduler_check_migrate, MigrationScheduler_check_migrate,
    MigrationScheduler_update_instance_infos. rewrite E.
  destruct (gs_migrate_scheduler gs) as [thr calc en p n ids d sorted].
  destruct p as [cls pthr pcalc]. destruct cls; eexists; reflexivity.
Qed.

Lemma check_migrate_empty_registry_witness :
  exists gs0 gs',
    new_GlobalScheduler example_formula (example_config "prefill_relaxed" true) = Some gs0 /\
    GlobalScheduler_check_migrate gs0 example_heap = Some (([], gs'), example_heap).
Proof.
  destruct (new_GlobalScheduler example_formula (example_config "prefill_relaxed" true))
    as [gs0|] eqn:N; [|vm_compute in N; discriminate].
  assert (E : gs_instance_info gs0 = []).
  { vm_compute in N. injection N as <-. reflexivity. }
  destruct (check_migrate_empty_registry gs0 example_heap E) as [gs' C].
  exists gs0, gs'. split; [reflexivity|exact C].
Defined.

Lemma filter_none {A} (P : A -> Prop) `{forall x, Decision (P x)} (l : list A) :
  (forall x, x ∈ l -> ~ P x) -> filter P l = [].
Proof.
  induction l as [|x l IH]; intros E; [reflexivity|].
  rewrite filter_cons, decide_False by (apply E; left).
  apply IH. intros y I. apply E. right. exact I.
Qed.

(** X3: [scale_up(ids)] followed by [scale_down(ids)], from a consistent
    state: neither call raises, and the registry ends as [scale_down(ids)]
    alone would leave it: the entries of the ids are gone, every other
    entry is as before, the id set loses exactly the ids, and the state
    stays consistent. In particular, when none of the ids was registered,
    the registry and the id set are restored. *)
Theorem scale_up_then_down gs ids h :
  gs_inv gs = true ->
  exists gs1 h1 gs2,
    GlobalScheduler_scale_up gs ids h = Some ((tt, gs1), h1) /\
    GlobalScheduler_scale_down gs1 ids h1 = Some ((tt, gs2), h1) /\
    gs_inv gs2 = true /\ heap_ext h h1 /\
    gs_instance_info gs2 = filter (fun kv => kv.1 ∉ ids) (gs_instance_info gs) /\
    gs_instance_id_set gs2 = gs_instance_id_set gs ∖ list_to_set ids /\
    ((forall id, id ∈ ids -> id ∉ (gs_instance_info gs).*1) ->
     gs_instance_info gs2 = gs_instance_info gs /\ gs_instance_id_set gs2 = gs_instance_id_set gs).
Proof.
  intros I.
  destruct (scale_up_spec gs ids h I) as (gs1 & h1 & new & E1 & I1 & X & Info1 & _ & S1).
  destruct (scale_down_spec gs1 ids h1 I1) as (gs2 & E2 & I2 & Info2 & S2).
  pose proof I as I0. apply gs_inv_spec in I0 as (ND & Sg & _).
  pose proof I1 as I1'. apply gs_inv_spec in I1' as (ND1 & Sg1 & _).
  assert (Info : gs_instance_info gs2 = filter (fun kv => kv.1 ∉ ids) (gs_instance_info gs)).
  { rewrite Info2, Info1, filter_app.
    rewrite (filter_none _ new), app_nil_r; [reflexivity|].
    intros [k v] Ikv. simpl. intros Nk. apply Nk.
    assert (Kn : k ∈ new.*1) by exact (list_elem_of_fmap_2 fst _ _ Ikv).
    rewrite Info1, fmap_app in ND1. apply NoDup_app in ND1 as [_ [Dis _]].
    assert (Ko : k ∉ gs_instance_id_set gs).
    { rewrite Sg. intros Ko. apply elem_of_list_to_set in Ko. exact (Dis k Ko Kn). }
    assert (K1 : k ∈ gs_instance_id_set gs1).
    { rewrite Sg1, Info1, fmap_app. apply elem_of_list_to_set, elem_of_app. right. exact Kn. }
    rewrite S1 in K1. apply elem_of_union in K1 as [K1|K1]; [contradiction|].
    apply elem_of_list_to_set in K1. exact K1. }
  assert (S : gs_instance_id_set gs2 = gs_instance_id_set gs ∖ list_to_set ids)
    by (rewrite S2, S1; set_solver).
  exists gs1, h1, gs2.
  split; [exact E1|]. split; [exact E2|]. split; [exact I2|]. split; [exact X|].
  split; [exact Info|]. split; [exact S|].
  intros Fresh. split.
  - rewrite Info. apply filter_all. intros [k v] Ikv Kk. simpl in Kk.
    apply (Fresh k Kk). exact (list_elem_of_fmap_2 fst _ _ Ikv).
  - rewrite S. apply leibniz_equiv. intros x. rewrite elem_of_difference. split; [tauto|].
    intros Hx. split; [exact Hx|]. intros Hi. apply elem_of_list_to_set in Hi.
    apply (Fresh x Hi). rewrite Sg in Hx. apply elem_of_list_to_set in Hx. exact Hx.
Qed.

Lemma scale_up_then_down_witness :
  exists gs1 h1 gs2,
    GlobalScheduler_scale_up (example_gs Balanced example_registry) ["extra"; "cold"] example_heap
    = Some ((tt, gs1), h1) /\
    GlobalScheduler_scale_down gs1 ["extra"; "cold"] h1 = Some ((tt, gs2), h1) /\
    gs_inv gs2 = true /\ heap_ext example_heap h1 /\
    gs_instance_info gs2 = filter (fun kv => kv.1 ∉ ["extra"; "cold"]) example_registry /\
    gs_instance_id_set gs2 = gs_instance_id_set (example_gs Balanced example_registry)
                             ∖ list_to_set ["extra"; "cold"] /\
    ((forall id, id ∈ ["extra"; "cold"] -> id ∉ example_registry.*1) ->
     gs_instance_info gs2 = example_registry /\
     gs_instance_id_set gs2 = gs_instance_id_set (example_gs Balanced example_registry)).
Proof.
  apply (scale_up_then_down (example_gs Balanced example_registry) ["extra"; "cold"] example_heap).
  vm_compute. reflexivity.
Defined.
